(** * A recursive-backtracking maze generator: model and verification

    Shallow embedding of [C++/mazes/maze1/maze.cpp]: the [Maze] object
    (dimensions, seed, flattened cell array), the carver
    [BackTracker::create_passage_from] and the ASCII renderer [Maze::draw].

    Conventions of the model.
    - C++ [int] values are integers of [Z].  Signed overflow is undefined in
      C++, so the model describes the executions in which [width * height]
      and the coordinates fit in an [int]; no wrap-around is written out,
      except in [index_int], which is [Maze::index] as the machine computes
      it and agrees with [index] on every grid of at most [INT_MAX] cells.
    - The cell array [_grid] is a [list Z]; an access outside the allocated
      block is undefined behaviour and is modelled by [None].
    - The C library generator is a function from the seed given to [srand]
      to the infinite sequence of values returned by successive [rand()]
      calls; the generator state is the seed and the number of draws consumed.
    - Recursion is bounded by a fuel counter that limits the nesting depth. *)

From Stdlib Require Import ZArith Lia DecimalString.
From stdpp Require Import base numbers list strings relations gmap.

Open Scope Z_scope.

(** ** Arrays *)

(** [a[i]] for a C array: defined only inside the block. *)
Definition arr_get (a : list Z) (i : Z) : option Z :=
  if i <? 0 then None else a !! Z.to_nat i.

(** [a[i] = v] for a C array: defined only inside the block. *)
Definition arr_set (a : list Z) (i : Z) (v : Z) : option (list Z) :=
  if (0 <=? i) && (i <? Z.of_nat (length a))
  then Some (<[Z.to_nat i := v]> a) else None.

(** ** The Maze object *)

Record Maze := {
  _width : Z;
  _height : Z;
  _seed : Z;
  _grid : list Z
}.

(** [Maze::index]: no bounds check. *)
Definition index (width x y : Z) : Z := y * width + x.

(** The largest [int] (32 bits). *)
Definition INT_MAX : Z := 2 ^ 31 - 1.

(** An [int] result brought back into 32 bits, two's complement: what the
    compiled program computes when the exact result does not fit (the
    language leaves that case undefined). *)
Definition wrap_int (z : Z) : Z := (z + 2 ^ 31) `mod` 2 ^ 32 - 2 ^ 31.

(** [Maze::index] in the arithmetic of [int]: the product, then the sum. *)
Definition index_int (width x y : Z) : Z :=
  wrap_int (wrap_int (y * width) + x).

(** The read [_grid[index(x, y)]] of [create_passage_from] and [draw]. *)
Definition grid_get (m : Maze) (x y : Z) : option Z :=
  arr_get (_grid m) (index (_width m) x y).

(** The write [_grid[index(x, y)] |= direction] of [create_passage_from];
    the result is the new cell array. *)
Definition grid_or (m : Maze) (x y direction : Z) : option (list Z) :=
  v ← grid_get m x y;
  arr_set (_grid m) (index (_width m) x y) (Z.lor v direction).

(** State of the C library generator: the seed and the number of draws. *)
Definition rng_state : Type := Z * nat.

(** [srand(s)] restarts the sequence of the seed [s]. *)
Definition srand (s : Z) : rng_state := (s, O).

(** [Maze::Maze]: stores the three integers, seeds the generator, and
    zero-fills [width * height] cells (none when the product is not
    positive: the initialisation loop does not run). *)
Definition Maze_new (w h s : Z) : Maze * rng_state :=
  ({| _width := w; _height := h; _seed := s;
      _grid := replicate (Z.to_nat (w * h)) 0 |}, srand s).

(** Decimal text of an [int], as [operator<<] prints it. *)
Definition show_int (z : Z) : string := NilZero.string_of_int (Z.to_int z).

(** What the program does that an observer can see: text sent to [cout],
    calls of [Maze::index] made by the renderer. *)
Inductive event :=
| Out (s : string)
| Index (x y : Z).

Definition endl : string := String (Ascii.ascii_of_nat 10) EmptyString.

(** A counted loop [for (int i = start; ...; ++i)] running [n] times, the
    events of the iterations in order. *)
Fixpoint for_range (n : nat) (i : Z) (body : Z → option (list event))
  : option (list event) :=
  match n with
  | O => Some []
  | S n' =>
      e ← body i;
      es ← for_range n' (i + 1) body;
      Some (e ++ es)
  end.

(** The text printed, from a list of events. *)
Fixpoint rendered (es : list event) : string :=
  match es with
  | [] => EmptyString
  | Out s :: es' => String.append s (rendered es')
  | Index _ _ :: es' => rendered es'
  end.

(** The coordinates passed to [Maze::index], from a list of events. *)
Fixpoint lookups (es : list event) : list (Z * Z) :=
  match es with
  | [] => []
  | Out _ :: es' => lookups es'
  | Index x y :: es' => (x, y) :: lookups es'
  end.

(** State threaded through the carver: the cell array, the generator, and
    the log of the entries of [create_passage_from] (newest first). *)
Record carve_state := {
  st_grid : list Z;
  st_rng : rng_state;
  st_calls : list (Z * Z)
}.

(** ** [Maze::inspect] *)

(** The body of the inner loop of [Maze::inspect], for the cell [(i, j)]:
    [cout << _grid[index(i,j)] << " "]. *)
Definition inspect_cell (m : Maze) (j i : Z) : option (list event) :=
  v ← arr_get (_grid m) (index (_width m) i j);
  Some [Index i j; Out (show_int v); Out " "].

(** One row of [Maze::inspect]. *)
Definition inspect_row (m : Maze) (j : Z) : option (list event) :=
  cells ← for_range (Z.to_nat (_width m)) 0 (inspect_cell m j);
  Some (cells ++ [Out endl]).

(** [Maze::inspect]. *)
Definition inspect (m : Maze) : option (list event) :=
  rows ← for_range (Z.to_nat (_height m)) 0 (inspect_row m);
  Some (rows ++ [Out endl]).

(** ** Strings cut at a character *)

(** Whether the character [c] occurs in [s]. *)
Fixpoint occurs (c : Ascii.ascii) (s : string) : bool :=
  match s with
  | EmptyString => false
  | String x s' => Ascii.eqb x c || occurs c s'
  end.

(** The pieces of [s] that the character [delim] ends or separates, in
    order; a last piece is left out when it is empty. *)
Fixpoint pieces (delim : Ascii.ascii) (s : string) : list string :=
  match s with
  | EmptyString => []
  | String c s' =>
      if Ascii.eqb c delim then EmptyString :: pieces delim s'
      else match pieces delim s' with
           | [] => [String c EmptyString]
           | p :: ps => String c p :: ps
           end
  end.

(** [s] with [delim] added at its end, unless [s] is empty or ends with
    [delim] already. *)
Fixpoint terminated (delim : Ascii.ascii) (s : string) : string :=
  match s with
  | EmptyString => EmptyString
  | String c s' =>
      match s' with
      | EmptyString =>
          if Ascii.eqb c delim then String c EmptyString
          else String c (String delim EmptyString)
      | _ => String c (terminated delim s')
      end
  end.

(** Concatenation of a list of strings, each followed by [delim]. *)
Definition unsplit (delim : Ascii.ascii) (l : list string) : string :=
  foldr (λ t r, t +:+ String delim r) EmptyString l.

(** ** The command-line parser of [optparse.cpp] *)

Module OptParser.

(** [std::getline(ss, item, delim)] on a stream whose unread part is [s]
    and is not empty: the characters before the first [delim], and what is
    left to read after it (nothing when there is no [delim]). *)
Fixpoint read_item (delim : Ascii.ascii) (s : string) : string * string :=
  match s with
  | EmptyString => (EmptyString, EmptyString)
  | String c s' =>
      if Ascii.eqb c delim then (EmptyString, s')
      else let '(item, rest) := read_item delim s' in (String c item, rest)
  end.

(** [std::getline(ss, item, delim)] as a condition: it fails when the
    stream is at its end, where it can extract nothing. *)
Definition getline (delim : Ascii.ascii) (s : string) : option (string * string) :=
  match s with
  | EmptyString => None
  | _ => Some (read_item delim s)
  end.

(** The loop [while (getline(ss, item, delim)) elems.push_back(item)];
    [fuel] bounds the number of tests of the condition. *)
Fixpoint split_loop (fuel : nat) (delim : Ascii.ascii) (s : string)
    (elems : list string) : option (list string) :=
  match fuel with
  | O => None
  | S fuel' =>
      match getline delim s with
      | None => Some elems
      | Some (item, rest) => split_loop fuel' delim rest (elems ++ [item])
      end
  end.

(** [OptParser::split(s, delim, elems)]: the condition is tested at most
    once per character of [s], and once more. *)
Definition split_into (s : string) (delim : Ascii.ascii) (elems : list string)
    : option (list string) :=
  split_loop (S (String.length s)) delim s elems.

(** [OptParser::split(s, delim)]. *)
Definition split (s : string) (delim : Ascii.ascii) : option (list string) :=
  split_into s delim [].

(** The members of [class OptParser] ([optparse.h] is not in the sources at
    hand; the types are those of the values the methods put in them). *)
Record t := {
  _scriptName : string;
  _usage : list string;
  _args : list string;
  _attrInt : gmap string Z;
  _attrString : gmap string string;
  _mapLongToShort : gmap string string;
  _desc : gmap string string
}.

(** [v[i]] for a [std::vector] and an index of type [size_t]: defined only
    below [v.size()]. *)
Definition vec_at {A} (v : list A) (i : Z) : option A :=
  if (0 <=? i) && (i <? Z.of_nat (length v)) then v !! Z.to_nat i else None.

(** [a.size() - 1] in [size_t] arithmetic (64 bits): it wraps around when
    the vector is empty. *)
Definition last_index {A} (a : list A) : Z :=
  (Z.of_nat (length a) - 1) `mod` 2 ^ 64.

(** The character ['/']. *)
Definition slash : Ascii.ascii := Ascii.ascii_of_nat 47.

(** [OptParser::OptParser(argc, argv)], [argv] being the [argc] strings of
    the command line. *)
Definition new (argv : list string) : option t :=
  match argv with
  | [] =>
      Some {| _scriptName := ""; _usage := []; _args := [];
              _attrInt := ∅; _attrString := ∅;
              _mapLongToShort := ∅; _desc := ∅ |}
  | argv0 :: rest =>
      a ← split argv0 slash;
      name ← vec_at a (last_index a);
      Some {| _scriptName := name;
              _usage := ["Usage: " +:+ name +:+ " [options]"];
              _args := rest;
              _attrInt := ∅; _attrString := ∅;
              _mapLongToShort := ∅; _desc := ∅ |}
  end.

(** [OptParser::append_to_usage]. *)
Definition append_to_usage (p : t) (s : string) : t :=
  {| _scriptName := _scriptName p; _usage := _usage p ++ [s];
     _args := _args p; _attrInt := _attrInt p;
     _attrString := _attrString p;
     _mapLongToShort := _mapLongToShort p; _desc := _desc p |}.

(** [OptParser::prepare_to_start_attributes]. *)
Definition prepare_to_start_attributes (p : t) : t := append_to_usage p "".

(** [OptParser::prepare_to_end_attributes]. *)
Definition prepare_to_end_attributes (p : t) : t := append_to_usage p "".

(** [std::map::insert]: nothing changes when the key is present. *)
Definition map_insert {V} (k : string) (v : V) (m : gmap string V)
    : gmap string V :=
  match m !! k with
  | Some _ => m
  | None => <[k := v]> m
  end.

Definition tab : string := String (Ascii.ascii_of_nat 9) EmptyString.

(** The usage line of an attribute:
    ["\t-" + keyShort + ", --" + keyLong + "=[value] \t" + desc]. *)
Definition usage_line (keyShort keyLong desc : string) : string :=
  tab +:+ "-" +:+ keyShort +:+ ", --" +:+ keyLong +:+ "=[value] " +:+
  tab +:+ desc.

(** [OptParser::add_integer_attribute]. *)
Definition add_integer_attribute (p : t)
    (keyShort keyLong desc : string) (defaultValue : Z) : t :=
  append_to_usage
    {| _scriptName := _scriptName p; _usage := _usage p; _args := _args p;
       _attrInt := map_insert keyShort defaultValue (_attrInt p);
       _attrString := _attrString p;
       _mapLongToShort := map_insert keyLong keyShort (_mapLongToShort p);
       _desc := map_insert keyShort desc (_desc p) |}
    (usage_line keyShort keyLong desc).

(** [OptParser::add_string_attribute]. *)
Definition add_string_attribute (p : t)
    (keyShort keyLong desc defaultValue : string) : t :=
  append_to_usage
    {| _scriptName := _scriptName p; _usage := _usage p; _args := _args p;
       _attrInt := _attrInt p;
       _attrString := map_insert keyShort defaultValue (_attrString p);
       _mapLongToShort := map_insert keyLong keyShort (_mapLongToShort p);
       _desc := map_insert keyShort desc (_desc p) |}
    (usage_line keyShort keyLong desc).

(** The loop of [OptParser::parse] over the arguments that are left: each
    one is printed, then [continue] goes to the next one, so the
    [return false] of the body is never reached. *)
Fixpoint parse_loop (args : list string) : list event * bool :=
  match args with
  | [] => ([], true)
  | t :: rest =>
      let '(es, r) := parse_loop rest in (Out t :: Out endl :: es, r)
  end.

(** [OptParser::parse]: what it prints and what it returns. *)
Definition parse (p : t) : list event * bool := parse_loop (_args p).

(** [OptParser::usage]. *)
Definition usage (p : t) : list event :=
  l ← _usage p; [Out l; Out endl].

(** A declaration of an attribute, as a caller makes it. *)
Inductive attribute :=
| IntAttribute (keyShort keyLong desc : string) (defaultValue : Z)
| StringAttribute (keyShort keyLong desc defaultValue : string).

Definition declare (p : t) (a : attribute) : t :=
  match a with
  | IntAttribute ks kl d v => add_integer_attribute p ks kl d v
  | StringAttribute ks kl d v => add_string_attribute p ks kl d v
  end.

(** A series of declarations, in order. *)
Definition declare_all (p : t) (l : list attribute) : t :=
  foldl declare p l.

Definition short_key (a : attribute) : string :=
  match a with
  | IntAttribute ks _ _ _ => ks
  | StringAttribute ks _ _ _ => ks
  end.

Definition long_key (a : attribute) : string :=
  match a with
  | IntAttribute _ kl _ _ => kl
  | StringAttribute _ kl _ _ => kl
  end.

Definition description (a : attribute) : string :=
  match a with
  | IntAttribute _ _ d _ => d
  | StringAttribute _ _ d _ => d
  end.

(** The default of the first integer attribute declared under the short
    key [k]. *)
Fixpoint first_int_default (k : string) (l : list attribute) : option Z :=
  match l with
  | [] => None
  | IntAttribute ks _ _ v :: l' =>
      if decide (ks = k) then Some v else first_int_default k l'
  | StringAttribute _ _ _ _ :: l' => first_int_default k l'
  end.

(** The description of the first attribute declared under the short key
    [k]. *)
Fixpoint first_description (k : string) (l : list attribute)
    : option string :=
  match l with
  | [] => None
  | a :: l' =>
      if decide (short_key a = k) then Some (description a)
      else first_description k l'
  end.

(** [main] of [optparse.cpp], the test driver of the parser, run on the
    command line [argv]: what it prints and its exit status. *)
Definition main (argv : list string) : option (list event * Z) :=
  b ← new argv;
  let b := prepare_to_start_attributes b in
  let b := add_integer_attribute b "w" "width" "(optional)" 10 in
  let b := add_integer_attribute b "h" "height" "(optional)" 10 in
  let b := add_string_attribute b "s" "string" "(optional)" "xx" in
  let b := prepare_to_end_attributes b in
  let es := usage b in
  let '(es', ok) := parse b in
  Some (es ++ es'
        ++ [Out (if ok : bool then "parse good" else "parse bad"); Out endl],
        0).

End OptParser.

(** A linear congruential generator, to run the model on. *)
Definition lcg (seed : Z) (k : nat) : N :=
  Z.to_N ((Nat.iter (S k) (λ x, (x * 1103515245 + 12345) mod 2147483648)
            (seed mod 2147483648)) / 65536 mod 32768).

(** A generator that follows [lcg] for the seed [s0] and is constant for
    every other seed. *)
Definition lcg_only (s0 seed : Z) (k : nat) : N :=
  if seed =? s0 then lcg seed k else 0%N.

(** Pairwise disjoint, non-zero direction codes: what [maze.h] must provide
    for a cell to be a set of four direction bits. *)
Definition direction_bits_ok (n s e w : Z) : bool :=
  negb (n =? 0) && negb (s =? 0) && negb (e =? 0) && negb (w =? 0) &&
  (Z.land n s =? 0) && (Z.land n e =? 0) && (Z.land n w =? 0) &&
  (Z.land s e =? 0) && (Z.land s w =? 0) && (Z.land e w =? 0).

Section MazeModel.

(** The direction codes [N], [S], [E], [W] of [maze.h] (not in the
    sources at hand), kept abstract. *)
Variables dN dS dE dW : Z.

(** The sequence of [rand()] values for each seed; [rand] never returns a
    negative number, hence [N]. *)
Variable rand_stream : Z → nat → N.

(** Modelled from the spec: the table [Maze::DX] built by
    [create_map_dx] in [maze.h]; East = +1, West = -1.  A [std::map]
    lookup of an absent key yields 0. *)
Definition DX (d : Z) : Z :=
  if d =? dE then 1 else if d =? dW then -1 else 0.

(** Modelled from the spec: the table [Maze::DY] built by
    [create_map_dy] in [maze.h]; North = -1, South = +1. *)
Definition DY (d : Z) : Z :=
  if d =? dN then -1 else if d =? dS then 1 else 0.

(** Modelled from the spec: the table [Maze::OPPOSITE] built by
    [create_map_opposite] in [maze.h]; North<->South, East<->West. *)
Definition OPPOSITE (d : Z) : Z :=
  if d =? dN then dS else if d =? dS then dN
  else if d =? dE then dW else if d =? dW then dE else 0.

(** [rand()]: the next value of the sequence. *)
Definition rand (r : rng_state) : Z * rng_state :=
  (Z.of_N (rand_stream r.1 r.2), (r.1, S r.2)).

(** The shuffle loop of [create_passage_from], [n] iterations from
    index [i]:
    [r = i + rand() % (4-i); swap(directions[i], directions[r])]. *)
Fixpoint shuffle_loop (n : nat) (i : Z) (directions : list Z)
    (g : rng_state) : option (list Z * rng_state) :=
  match n with
  | O => Some (directions, g)
  | S n' =>
      let '(v, g') := rand g in
      let r := i + Z.rem v (4 - i) in
      temp ← arr_get directions i;
      at_r ← arr_get directions r;
      d1 ← arr_set directions i at_r;
      d2 ← arr_set d1 r temp;
      shuffle_loop n' (i + 1) d2 g'
  end.

(** [int directions[] = { N, S, E, W }; for (i = 0; i < 4; ++i) ...] *)
Definition shuffle (g : rng_state) : option (list Z * rng_state) :=
  shuffle_loop 4 0 [dN; dS; dE; dW] g.

Section Carver.

Variables width height : Z.

(** The carving loop over the shuffled directions, at cell [(x, y)];
    [recurse] is the recursive call. *)
Fixpoint carve_loop (recurse : Z → Z → carve_state → option carve_state)
    (x y : Z) (directions : list Z) (st : carve_state)
    : option carve_state :=
  match directions with
  | [] => Some st
  | direction :: rest =>
      let dx := x + DX direction in
      let dy := y + DY direction in
      if (0 <=? dy) && (dy <=? height - 1) &&
         (0 <=? dx) && (dx <=? width - 1) then
        v ← arr_get (st_grid st) (index width dx dy);
        if v =? 0 then
          cur ← arr_get (st_grid st) (index width x y);
          g1 ← arr_set (st_grid st) (index width x y)
                  (Z.lor cur direction);
          nbv ← arr_get g1 (index width dx dy);
          g2 ← arr_set g1 (index width dx dy)
                  (Z.lor nbv (OPPOSITE direction));
          st' ← recurse dx dy
                  {| st_grid := g2; st_rng := st_rng st;
                     st_calls := st_calls st |};
          carve_loop recurse x y rest st'
        else carve_loop recurse x y rest st
      else carve_loop recurse x y rest st
  end.

(** [BackTracker::create_passage_from]; [fuel] bounds the nesting depth
    of the calls. *)
Fixpoint create_passage_from (fuel : nat) (x y : Z) (st : carve_state)
    : option carve_state :=
  match fuel with
  | O => None
  | S fuel' =>
      '(directions, g) ← shuffle (st_rng st);
      carve_loop (create_passage_from fuel') x y directions
        {| st_grid := st_grid st; st_rng := g;
           st_calls := (x, y) :: st_calls st |}
  end.

End Carver.

(** The run of the [BackTracker] constructor with a given depth bound:
    [Maze(w, h, s)], then [create_passage_from(0, 0)]. *)
Definition carve (fuel : nat) (w h s : Z) : option carve_state :=
  let '(m, g) := Maze_new w h s in
  create_passage_from w h fuel 0 0
    {| st_grid := _grid m; st_rng := g; st_calls := [] |}.

(** [BackTracker::BackTracker].  The depth bound is one more than the
    number of cells; it is never reached, and a larger one gives the same
    result (see [carve_fuel] and [carve_result]). *)
Definition BackTracker (w h s : Z) : option Maze :=
  st ← carve (S (Z.to_nat (w * h))) w h s;
  Some {| _width := w; _height := h; _seed := s; _grid := st_grid st |}.

(** The body of the inner loop of [Maze::draw], for the cell [(i, j)]. *)
Definition draw_cell (m : Maze) (i j : Z) : option (list event) :=
  val ← arr_get (_grid m) (index (_width m) i j);
  let floor :=
    if negb (Z.land val dS =? 0) then Out " " else Out "_" in
  if negb (Z.land val dE =? 0) then
    east ← arr_get (_grid m) (index (_width m) (i + 1) j);
    Some [Index i j; floor; Index (i + 1) j;
          if negb (Z.land (Z.lor val east) dS =? 0)
          then Out " " else Out "_"]
  else Some [Index i j; floor; Out "|"].

(** One row of [Maze::draw]. *)
Definition draw_row (m : Maze) (j : Z) : option (list event) :=
  cells ← for_range (Z.to_nat (_width m)) 0 (λ i, draw_cell m i j);
  Some (Out "|" :: cells ++ [Out endl]).

(** [Maze::draw]. *)
Definition draw (m : Maze) : option (list event) :=
  rows ← for_range (Z.to_nat (_height m)) 0 (draw_row m);
  Some (Out " " :: replicate (Z.to_nat (2 * _width m - 1)) (Out "_")
        ++ [Out endl] ++ rows
        ++ [Out " width: "; Out (show_int (_width m));
            Out ", height: "; Out (show_int (_height m));
            Out ", seed: "; Out (show_int (_seed m)); Out endl]).

(** The successful branch of [main]: build the maze, draw it. *)
Definition main (w h s : Z) : option string :=
  m ← BackTracker w h s;
  es ← draw m;
  Some (rendered es).


(** ** Specification vocabulary *)

(** The four directions, in the order of the initial array. *)
Definition dirs : list Z := [dN; dS; dE; dW].

(** The shuffle as the specification words it: indexes 0 to 2 only. *)
Definition shuffle_as_specified (g : rng_state)
    : option (list Z * rng_state) :=
  shuffle_loop 3 0 [dN; dS; dE; dW] g.

(** The index [r = i + rand() % (4 - i)] drawn by the iteration [i] of a
    shuffle that starts in the generator state [g]: its [rand()] is the
    draw number [i] after [g]. *)
Definition shuffle_pick (g : rng_state) (i : nat) : Z :=
  Z.of_nat i + Z.rem (Z.of_N (rand_stream g.1 (i + g.2))) (4 - Z.of_nat i).

(** The list [l] with the elements at the positions [i] and [r]
    exchanged. *)
Definition swap_at (i r : Z) (l : list Z) : list Z :=
  match l !! Z.to_nat i, l !! Z.to_nat r with
  | Some a, Some b => <[Z.to_nat r := a]> (<[Z.to_nat i := b]> l)
  | _, _ => l
  end.

(** Coordinates inside the grid. *)
Definition in_bounds (w h : Z) (c : Z * Z) : bool :=
  (0 <=? c.1) && (c.1 <? w) && (0 <=? c.2) && (c.2 <? h).

(** The cell next to [c] in direction [d]. *)
Definition neighbor (c : Z * Z) (d : Z) : Z * Z :=
  (c.1 + DX d, c.2 + DY d).

(** The passage bit [d] of a cell value: [(v & d) != 0]. *)
Definition open (v d : Z) : bool := negb (Z.land v d =? 0).

(** The value of the cell at in-bounds coordinates [c]. *)
Definition cell (w : Z) (g : list Z) (c : Z * Z) : Z :=
  default 0 (arr_get g (index w c.1 c.2)).

(** An open bit-pair: [c] has bit [d], and its neighbour in direction [d]
    has the opposite bit. *)
Definition pair_open (w h : Z) (g : list Z) (c : Z * Z) (d : Z) : bool :=
  in_bounds w h c && in_bounds w h (neighbor c d) &&
  open (cell w g c) d && open (cell w g (neighbor c d)) (OPPOSITE d).

(** All the cells of the grid, by flattened index. *)
Definition cells (w h : Z) : list (Z * Z) :=
  (λ k, (k `mod` w, k `div` w)) <$> seqZ 0 (w * h).

(** The edges of the passage graph, each open bit-pair once (from its
    western or northern end). *)
Definition edges (w h : Z) (g : list Z) : list ((Z * Z) * (Z * Z)) :=
  c ← cells w h;
  d ← [dE; dS];
  if pair_open w h g c d then [(c, neighbor c d)] else [].

(** Adjacency in the passage graph. *)
Definition passage (w h : Z) (g : list Z) (a b : Z * Z) : Prop :=
  (a, b) ∈ edges w h g ∨ (b, a) ∈ edges w h g.

(** Every cell can be reached from every other one. *)
Definition connected (w h : Z) (g : list Z) : Prop :=
  ∀ a b, in_bounds w h a = true → in_bounds w h b = true →
         rtc (passage w h g) a b.

(** A cycle of a graph given by its adjacency [R]: at least three
    pairwise distinct nodes, each adjacent to the next one, the last one
    to the first. *)
Definition cycle {A} (R : A → A → Prop) (l : list A) : Prop :=
  NoDup l ∧ (3 ≤ length l)%nat ∧
  ∀ i a b, l !! i = Some a →
    l !! (if decide (S i = length l) then O else S i) = Some b → R a b.

Definition acyclic {A} (R : A → A → Prop) : Prop := ∀ l, ¬ cycle R l.

(** The passage graph is a spanning tree of the grid. *)
Definition spanning_tree (w h : Z) (g : list Z) : Prop :=
  connected w h g ∧
  Z.of_nat (length (edges w h g)) = w * h - 1 ∧
  acyclic (passage w h g).

(** The number of East and South bits of a cell value. *)
Definition passages_of (v : Z) : nat :=
  (if open v dE then 1 else 0) + (if open v dS then 1 else 0).

(** [_grid[index(c)] |= d], on in-bounds coordinates. *)
Definition mark (w : Z) (g : list Z) (c : Z * Z) (d : Z) : list Z :=
  <[Z.to_nat (index w c.1 c.2) := Z.lor (cell w g c) d]> g.

(** The renderer as the specification words it: the two glyphs of a
    cell, the East neighbour being the cell at [(i+1, j)] of the grid. *)
Definition floor_glyph (w : Z) (g : list Z) (i j : Z) : string :=
  if open (cell w g (i, j)) dS then " " else "_".

Definition east_glyph (w h : Z) (g : list Z) (i j : Z) : string :=
  if open (cell w g (i, j)) dE then
    if open (cell w g (i, j)) dS ||
       (in_bounds w h (i + 1, j) && open (cell w g (i + 1, j)) dS)
    then " " else "_"
  else "|".

(** Concatenation of a list of strings. *)
Definition join (l : list string) : string :=
  foldr String.append EmptyString l.

(** The line of row [j]: a bar, the two glyphs of each cell from left to
    right, a newline. *)
Definition row_text (m : Maze) (j : Z) : string :=
  "|" +:+
  join ((λ i, floor_glyph (_width m) (_grid m) i j +:+
              east_glyph (_width m) (_height m) (_grid m) i j)
          <$> seqZ 0 (_width m)) +:+ endl.

Definition top_text (m : Maze) : string :=
  " " +:+ join (replicate (Z.to_nat (2 * _width m - 1)) "_") +:+ endl.

Definition metadata_text (m : Maze) : string :=
  " width: " +:+ show_int (_width m) +:+ ", height: " +:+
  show_int (_height m) +:+ ", seed: " +:+ show_int (_seed m) +:+ endl.

(** The whole diagram. *)
Definition diagram (m : Maze) : string :=
  top_text m +:+ join (row_text m <$> seqZ 0 (_height m)) +:+
  metadata_text m.

(** A maze whose cell array has the size of the grid and in which an
    East bit is only set where there is an East neighbour. *)
Definition drawable (m : Maze) : Prop :=
  length (_grid m) = Z.to_nat (_width m * _height m) ∧
  ∀ c, in_bounds (_width m) (_height m) c = true →
       open (cell (_width m) (_grid m) c) dE = true →
       in_bounds (_width m) (_height m) (neighbor c dE) = true.

(** Every direction from [c] that stays inside the grid leads to a cell
    that has been entered. *)
Definition finished (w h : Z) (calls : list (Z * Z)) (c : Z * Z) : Prop :=
  ∀ d, d ∈ dirs → in_bounds w h (neighbor c d) = true →
       neighbor c d ∈ calls.

(** The invariant of the carver, for the cell array [g] and the log
    [calls] of the cells entered so far, [r] being the cell the carving
    started from. *)
Record carved (w h : Z) (r : Z * Z) (g : list Z) (calls : list (Z * Z))
    : Prop := {
  cv_length : length g = Z.to_nat (w * h);
  cv_pair : ∀ c d, in_bounds w h c = true → d ∈ dirs →
    open (cell w g c) d = true → pair_open w h g c d = true;
  cv_seen : ∀ c, in_bounds w h c = true → cell w g c ≠ 0 → c ∈ calls;
  cv_mark : ∀ c, c ∈ calls →
    in_bounds w h c = true ∧ (cell w g c ≠ 0 ∨ calls = [c]);
  cv_nodup : NoDup calls;
  cv_count : (sum_list (passages_of <$> g) + 1 = length calls)%nat;
  cv_reach : ∀ c, c ∈ calls → rtc (passage w h g) r c;
  cv_acyclic : acyclic (passage w h g)
}.

(** From [st] to [st'] the carver has entered the cells [added] (newest
    first), has tried every direction from each of them, has kept the
    invariant, and has shuffled once per cell entered. *)
Definition extends (w h : Z) (r : Z * Z) (st st' : carve_state)
    (added : list (Z * Z)) : Prop :=
  st_calls st' = added ++ st_calls st ∧
  carved w h r (st_grid st') (st_calls st') ∧
  (∀ c, c ∈ added → finished w h (st_calls st') c) ∧
  st_rng st' = ((st_rng st).1, ((st_rng st).2 + 4 * length added)%nat).

(** The cells of the grid row by row, each row from left to right. *)
Definition row_major (w h : Z) : list (Z * Z) :=
  j ← seqZ 0 h; i ← seqZ 0 w; [(i, j)].

(** The four direction codes together. *)
Definition direction_mask : Z := Z.lor dN (Z.lor dS (Z.lor dE dW)).

(** The text of [Maze::inspect], from the cell values: one line per row,
    each value followed by a space, and an empty line at the end. *)
Definition inspect_text (m : Maze) : string :=
  join ((λ j, join ((λ i, show_int (cell (_width m) (_grid m) (i, j)) +:+ " ")
                      <$> seqZ 0 (_width m)) +:+ endl)
          <$> seqZ 0 (_height m)) +:+ endl.

(** The newline character of [endl]. *)
Definition newline : Ascii.ascii := Ascii.ascii_of_nat 10.

(** ** Arrays and bits *)

Lemma arr_get_Some a i v :
  arr_get a i = Some v ↔ 0 ≤ i ∧ a !! Z.to_nat i = Some v.
Proof.
  unfold arr_get. destruct (Z.ltb_spec i 0); split.
  - discriminate.
  - intros [? _]. lia.
  - auto.
  - intros [_ ?]. auto.
Qed.

Lemma arr_get_in a i :
  0 ≤ i < Z.of_nat (length a) → arr_get a i = Some (default 0 (arr_get a i)).
Proof.
  intros Hi. unfold arr_get. destruct (Z.ltb_spec i 0); [lia|].
  destruct (lookup_lt_is_Some_2 a (Z.to_nat i)) as [v Hv]; [lia|].
  by rewrite Hv.
Qed.

Lemma arr_set_in a i v :
  0 ≤ i < Z.of_nat (length a) →
  arr_set a i v = Some (<[Z.to_nat i := v]> a).
Proof.
  intros Hi. unfold arr_set.
  destruct (Z.leb_spec 0 i); [|lia].
  destruct (Z.ltb_spec i (Z.of_nat (length a))); [done|lia].
Qed.

Lemma open_zero d : open 0 d = false.
Proof. unfold open. by rewrite Z.land_0_l. Qed.

Lemma open_true v d : open v d = true ↔ Z.land v d ≠ 0.
Proof.
  unfold open. destruct (Z.eqb_spec (Z.land v d) 0); simpl; split;
    intros; congruence.
Qed.

Lemma open_nonzero v d : open v d = true → v ≠ 0.
Proof.
  rewrite open_true. intros H ->. by rewrite Z.land_0_l in H.
Qed.

Lemma open_lor v a d : open (Z.lor v a) d = open v d || open a d.
Proof.
  unfold open. rewrite Z.land_lor_distr_l.
  destruct (Z.eqb_spec (Z.land v d) 0) as [E1|E1],
           (Z.eqb_spec (Z.land a d) 0) as [E2|E2]; simpl;
    destruct (Z.eqb_spec (Z.lor (Z.land v d) (Z.land a d)) 0) as [E|E];
    try done; try (apply Z.lor_eq_0_iff in E; destruct E; congruence).
  rewrite E1, E2 in E. by rewrite Z.lor_0_l in E.
Qed.

Lemma lor_nonzero v d : d ≠ 0 → Z.lor v d ≠ 0.
Proof. intros Hd H. apply Z.lor_eq_0_iff in H. tauto. Qed.

(** ** The direction codes *)

Hypothesis Hdirs : direction_bits_ok dN dS dE dW = true.

Lemma dirs_facts :
  (dN ≠ 0 ∧ dS ≠ 0 ∧ dE ≠ 0 ∧ dW ≠ 0) ∧
  (Z.land dN dS = 0 ∧ Z.land dN dE = 0 ∧ Z.land dN dW = 0 ∧
   Z.land dS dE = 0 ∧ Z.land dS dW = 0 ∧ Z.land dE dW = 0).
Proof.
  pose proof Hdirs as H. unfold direction_bits_ok in H.
  repeat (apply andb_prop in H as [H ?]).
  repeat match goal with
         | X : negb _ = true |- _ => apply negb_true_iff in X
         | X : (_ =? _) = true |- _ => apply Z.eqb_eq in X
         | X : (_ =? _) = false |- _ => apply Z.eqb_neq in X
         end.
  tauto.
Qed.

Lemma dirs_distinct :
  dN ≠ dS ∧ dN ≠ dE ∧ dN ≠ dW ∧ dS ≠ dE ∧ dS ≠ dW ∧ dE ≠ dW.
Proof.
  destruct dirs_facts as [(?&?&?&?) (?&?&?&?&?&?)].
  repeat split; intros E; subst;
    match goal with
    | X : Z.land ?a ?a = 0 |- _ => rewrite Z.land_diag in X; congruence
    end.
Qed.

Ltac table :=
  destruct dirs_distinct as (?&?&?&?&?&?);
  unfold DX, DY, OPPOSITE;
  repeat match goal with
         | |- context [?a =? ?b] => destruct (Z.eqb_spec a b)
         end; congruence.

Lemma DX_N : DX dN = 0.
Proof. table. Qed.
Lemma DX_S : DX dS = 0.
Proof. table. Qed.
Lemma DX_E : DX dE = 1.
Proof. table. Qed.
Lemma DX_W : DX dW = -1.
Proof. table. Qed.
Lemma DY_N : DY dN = -1.
Proof. table. Qed.
Lemma DY_S : DY dS = 1.
Proof. table. Qed.
Lemma DY_E : DY dE = 0.
Proof. table. Qed.
Lemma DY_W : DY dW = 0.
Proof. table. Qed.
Lemma OPPOSITE_N : OPPOSITE dN = dS.
Proof. table. Qed.
Lemma OPPOSITE_S : OPPOSITE dS = dN.
Proof. table. Qed.
Lemma OPPOSITE_E : OPPOSITE dE = dW.
Proof. table. Qed.
Lemma OPPOSITE_W : OPPOSITE dW = dE.
Proof. table. Qed.

Create Rewrite HintDb tables.
#[local] Hint Rewrite DX_N DX_S DX_E DX_W DY_N DY_S DY_E DY_W
  OPPOSITE_N OPPOSITE_S OPPOSITE_E OPPOSITE_W : tables.

(** Case analysis on a direction. *)
Ltac dir_cases H :=
  unfold dirs in H;
  repeat (apply elem_of_cons in H; destruct H as [-> | H]);
  [ .. | by apply elem_of_nil in H ].

Lemma dirs_N : dN ∈ dirs.
Proof. unfold dirs. set_solver. Qed.
Lemma dirs_S : dS ∈ dirs.
Proof. unfold dirs. set_solver. Qed.
Lemma dirs_E : dE ∈ dirs.
Proof. unfold dirs. set_solver. Qed.
Lemma dirs_W : dW ∈ dirs.
Proof. unfold dirs. set_solver. Qed.
#[local] Hint Resolve dirs_N dirs_S dirs_E dirs_W : core.

Lemma dir_nonzero d : d ∈ dirs → d ≠ 0.
Proof.
  intros H. destruct dirs_facts as [(?&?&?&?) _]. dir_cases H; done.
Qed.

Lemma OPPOSITE_dir d : d ∈ dirs → OPPOSITE d ∈ dirs.
Proof. intros H. dir_cases H; autorewrite with tables; auto. Qed.

Lemma OPPOSITE_involutive d : d ∈ dirs → OPPOSITE (OPPOSITE d) = d.
Proof. intros H. dir_cases H; by autorewrite with tables. Qed.

Lemma neighbor_back c d : d ∈ dirs → neighbor (neighbor c d) (OPPOSITE d) = c.
Proof.
  intros H. destruct c as [x y]. unfold neighbor. simpl.
  dir_cases H; autorewrite with tables; f_equal; lia.
Qed.

Lemma neighbor_neq c d : d ∈ dirs → neighbor c d ≠ c.
Proof.
  intros H. destruct c as [x y]. unfold neighbor. simpl.
  dir_cases H; autorewrite with tables; intros [=]; lia.
Qed.

Lemma neighbor_inj c d d' :
  d ∈ dirs → d' ∈ dirs → neighbor c d = neighbor c d' → d = d'.
Proof.
  intros H H'. destruct c as [x y]. unfold neighbor. simpl.
  dir_cases H; dir_cases H'; autorewrite with tables; intros [=];
    try done; lia.
Qed.

Lemma open_dir d d' :
  d ∈ dirs → d' ∈ dirs → open d d' = bool_decide (d = d').
Proof.
  intros H H'.
  destruct dirs_facts as [(?&?&?&?) (?&?&?&?&?&?)].
  destruct dirs_distinct as (?&?&?&?&?&?).
  unfold open.
  dir_cases H; dir_cases H'.
  all: try (rewrite Z.land_diag, bool_decide_eq_true_2 by done;
            apply negb_true_iff, Z.eqb_neq; done).
  all: rewrite bool_decide_eq_false_2 by congruence.
  all: apply negb_false_iff, Z.eqb_eq.
  all: try done.
  all: by rewrite Z.land_comm.
Qed.

Lemma open_mark v d d' :
  d ∈ dirs → d' ∈ dirs →
  open (Z.lor v d) d' = open v d' || bool_decide (d = d').
Proof. intros. by rewrite open_lor, (open_dir d d'). Qed.

(** ** The shuffle *)

Lemma rand_draw g :
  ∃ v, 0 ≤ v ∧ rand g = (v, (g.1, S g.2)).
Proof. exists (Z.of_N (rand_stream g.1 g.2)). split; [lia|done]. Qed.

(** Evaluate an access to an array whose index is a numeral. *)
Ltac array_step :=
  match goal with
  | |- context [arr_get ?l ?i] =>
      let t := eval vm_compute in (arr_get l i) in
      change (arr_get l i) with t
  | |- context [arr_set ?l ?i ?v] =>
      let t := eval vm_compute in (arr_set l i v) in
      change (arr_set l i v) with t
  end.

Lemma shuffle_loop_ok n : ∀ i a b c d g,
  0 ≤ i → i + Z.of_nat n ≤ 4 →
  ∃ l, shuffle_loop n i [a; b; c; d] g = Some (l, (g.1, (g.2 + n)%nat)) ∧
       l ≡ₚ [a; b; c; d].
Proof.
  induction n as [|n IH]; intros i a b c d g Hi Hn.
  - exists [a; b; c; d]. simpl. rewrite Nat.add_0_r. by destruct g.
  - destruct (rand_draw g) as (v & Hv & Hr).
    pose proof (Z.rem_bound_pos v (4 - i) Hv ltac:(lia)) as Hk.
    cbn [shuffle_loop]. rewrite Hr. set (k := Z.rem v (4 - i)) in *. clearbody k.
    assert (Hcases : i = 0 ∨ i = 1 ∨ i = 2 ∨ i = 3) by lia.
    assert (Hg : (g.2 + S n = S g.2 + n)%nat) by lia. rewrite Hg.
    destruct Hcases as [-> | [-> | [-> | ->]]];
      assert (Hkc : k = 0 ∨ k = 1 ∨ k = 2 ∨ k = 3) by lia;
      destruct Hkc as [-> | [-> | [-> | ->]]]; try lia;
      repeat (array_step; cbn [mbind option_bind]);
      match goal with
      | |- ∃ l, shuffle_loop n ?j [?x; ?y; ?z; ?t] ?g' = _ ∧ _ =>
          destruct (IH j x y z t g' ltac:(lia) ltac:(lia)) as (l & -> & Hp)
      end;
      exists l; (split; [done|]); rewrite Hp; solve_Permutation.
Qed.

(** One shuffle consumes four draws and yields the four directions in
    some order. *)
Lemma shuffle_ok g :
  ∃ l, shuffle g = Some (l, (g.1, (g.2 + 4)%nat)) ∧ l ≡ₚ dirs.
Proof. apply (shuffle_loop_ok 4); lia. Qed.

(** ** Cells of a grid *)

Lemma in_bounds_iff w h c :
  in_bounds w h c = true ↔ (0 ≤ c.1 < w) ∧ (0 ≤ c.2 < h).
Proof.
  unfold in_bounds. rewrite !andb_true_iff, !Z.leb_le, !Z.ltb_lt. lia.
Qed.

Section Grid.

Variables w h : Z.

Abbreviation inb c := (in_bounds w h c = true).

Lemma index_range c : inb c → 0 ≤ index w c.1 c.2 < w * h.
Proof. rewrite in_bounds_iff. unfold index. nia. Qed.

Lemma index_inj c c' :
  inb c → inb c' → index w c.1 c.2 = index w c'.1 c'.2 → c = c'.
Proof.
  rewrite !in_bounds_iff. destruct c as [x y], c' as [x' y'].
  unfold index. simpl. intros ? ? E.
  assert (y = y') by nia. subst. f_equal. lia.
Qed.

Section Sized.

Variable g : list Z.
Hypothesis Hlen : length g = Z.to_nat (w * h).

Lemma cell_get c :
  inb c → arr_get g (index w c.1 c.2) = Some (cell w g c).
Proof.
  intros Hc. apply index_range in Hc. unfold cell.
  apply arr_get_in. lia.
Qed.

Lemma mark_set c d :
  inb c →
  arr_set g (index w c.1 c.2) (Z.lor (cell w g c) d)
  = Some (mark w g c d).
Proof.
  intros Hc. apply index_range in Hc. unfold mark.
  apply arr_set_in. lia.
Qed.

Lemma length_mark c d : length (mark w g c d) = Z.to_nat (w * h).
Proof. unfold mark. by rewrite length_insert. Qed.

Lemma cell_mark_eq c d :
  inb c → cell w (mark w g c d) c = Z.lor (cell w g c) d.
Proof.
  intros Hc. apply index_range in Hc.
  unfold cell at 1, mark, arr_get.
  destruct (Z.ltb_spec (index w c.1 c.2) 0); [lia|].
  rewrite list_lookup_insert_eq by lia. done.
Qed.

Lemma cell_mark_ne c c' d :
  inb c → inb c' → c ≠ c' → cell w (mark w g c d) c' = cell w g c'.
Proof.
  intros Hc Hc' Hne.
  assert (index w c.1 c.2 ≠ index w c'.1 c'.2)
    by (intros E; by apply Hne, index_inj).
  apply index_range in Hc, Hc'.
  unfold cell, mark, arr_get.
  destruct (Z.ltb_spec (index w c'.1 c'.2) 0); [lia|].
  rewrite list_lookup_insert_ne by lia. done.
Qed.

End Sized.

Lemma sum_list_insert (f : Z → nat) (l : list Z) i v x :
  l !! i = Some x →
  (sum_list (f <$> <[i := v]> l) + f x = sum_list (f <$> l) + f v)%nat.
Proof.
  revert i. induction l as [|y l IH]; intros [|i] Hi; simpl in *;
    try discriminate.
  - injection Hi as ->. lia.
  - specialize (IH i Hi). unfold fmap in IH. lia.
Qed.

Lemma sum_mark g c d :
  length g = Z.to_nat (w * h) → inb c →
  (sum_list (passages_of <$> mark w g c d) + passages_of (cell w g c)
   = sum_list (passages_of <$> g)
     + passages_of (Z.lor (cell w g c) d))%nat.
Proof.
  intros Hlen Hc. unfold mark. apply sum_list_insert.
  pose proof (cell_get g Hlen c Hc) as Hg.
  apply arr_get_Some in Hg. tauto.
Qed.

(** ** Cycles *)

Section Cycles.

Context {A : Type} `{EqDecision A}.
Implicit Types R : A → A → Prop.

(** A node of a cycle has two distinct neighbours on it. *)
Lemma cycle_neighbours R l n :
  cycle R l → n ∈ l → ∃ p s, p ≠ s ∧ R p n ∧ R n s.
Proof.
  intros (Hnd & Hlen & Hadj) Hn.
  apply list_elem_of_lookup in Hn as [i Hi].
  pose proof (lookup_lt_Some _ _ _ Hi) as Hlt.
  set (si := if decide (S i = length l) then O else S i).
  set (pi := if decide (i = O) then (length l - 1)%nat else (i - 1)%nat).
  assert (Hsi : (si < length l)%nat)
    by (unfold si; destruct (decide (S i = length l)); lia).
  assert (Hpi : (pi < length l)%nat)
    by (unfold pi; destruct (decide (i = O)); lia).
  destruct (lookup_lt_is_Some_2 l si Hsi) as [s Hs].
  destruct (lookup_lt_is_Some_2 l pi Hpi) as [p Hp].
  exists p, s. split; [|split].
  - intros ->.
    pose proof (NoDup_lookup l pi si s Hnd Hp Hs) as E.
    unfold pi, si in E.
    destruct (decide (i = O)), (decide (S i = length l)); lia.
  - apply (Hadj pi); [done|].
    replace (if decide (S pi = length l) then O else S pi) with i;
      [done|].
    unfold pi.
    destruct (decide (i = O));
      [destruct (decide (S (length l - 1) = length l))
      |destruct (decide (S (i - 1) = length l))]; lia.
  - by apply (Hadj i).
Qed.

Lemma cycle_subrel R R' l :
  cycle R l → (∀ a b, a ∈ l → b ∈ l → R a b → R' a b) → cycle R' l.
Proof.
  intros (Hnd & Hlen & Hadj) Hsub. repeat split; [done..|].
  intros i a b Ha Hb. apply Hsub.
  - by eapply list_elem_of_lookup_2.
  - by eapply list_elem_of_lookup_2.
  - by eapply Hadj.
Qed.

(** Hanging a new node [n] on a node [c] by one edge creates no
    cycle. *)
Lemma acyclic_add_leaf R R' c n :
  acyclic R → c ≠ n →
  (∀ a b, R' a b → R a b ∨ (a = c ∧ b = n) ∨ (a = n ∧ b = c)) →
  (∀ a, ¬ R a n) → (∀ a, ¬ R n a) →
  acyclic R'.
Proof.
  intros Hac Hcn Hsub Hin Hout l Hcyc.
  destruct (decide (n ∈ l)) as [Hn|Hn].
  - destruct (cycle_neighbours R' l n Hcyc Hn) as (p & s & Hps & Hp & Hs).
    apply Hsub in Hp, Hs.
    destruct Hp as [Hp|[[-> _]|[_ ->]]]; [by apply Hin in Hp| |done].
    destruct Hs as [Hs|[[-> _]|[_ ->]]]; [by apply Hout in Hs|done|done].
  - apply (Hac l), (cycle_subrel R'); [done|].
    intros a b Ha Hb HR.
    destruct (Hsub a b HR) as [?|[[-> ->]| [-> ->]]]; done.
Qed.

Lemma acyclic_empty R : (∀ a b, ¬ R a b) → acyclic R.
Proof.
  intros HR l (Hnd & Hlen & Hadj).
  destruct l as [|a [|b l]]; simpl in Hlen; try lia.
  apply (HR a b), (Hadj O); [done|].
  destruct (decide (1%nat = length (a :: b :: l))); simpl in *; [lia|done].
Qed.

End Cycles.

(** ** The passage graph *)

Hypothesis Hw : 1 ≤ w.
Hypothesis Hh : 1 ≤ h.

Lemma in_cells c : c ∈ cells w h ↔ inb c.
Proof.
  unfold cells. rewrite list_elem_of_fmap, in_bounds_iff. split.
  - intros (k & -> & Hk). apply elem_of_seqZ in Hk. simpl.
    pose proof (Z.mod_pos_bound k w ltac:(lia)).
    split; [lia|]. split.
    + apply Z.div_pos; lia.
    + apply Z.div_lt_upper_bound; lia.
  - intros [Hx Hy]. exists (index w c.1 c.2). split.
    + unfold index. destruct c as [x y]. simpl in *.
      rewrite Z.add_comm, Z.mod_add, Z.div_add by lia.
      rewrite Z.mod_small, Z.div_small by lia. f_equal; lia.
    + apply elem_of_seqZ. unfold index. nia.
Qed.

Lemma pair_open_iff g c d :
  pair_open w h g c d = true ↔
  inb c ∧ inb (neighbor c d) ∧ open (cell w g c) d = true ∧
  open (cell w g (neighbor c d)) (OPPOSITE d) = true.
Proof. unfold pair_open. rewrite !andb_true_iff. tauto. Qed.

Lemma in_edges g a b :
  (a, b) ∈ edges w h g ↔
  ∃ d, (d = dE ∨ d = dS) ∧ b = neighbor a d ∧ pair_open w h g a d = true.
Proof.
  unfold edges. rewrite list_elem_of_bind. split.
  - intros (c & Hin & Hc). apply list_elem_of_bind in Hin.
    destruct Hin as (d & Hin & Hd).
    destruct (pair_open w h g c d) eqn:Hp; [|by apply elem_of_nil in Hin].
    apply list_elem_of_singleton in Hin. injection Hin as -> ->.
    exists d. split; [|done].
    apply elem_of_cons in Hd as [-> | Hd]; [by left|].
    apply list_elem_of_singleton in Hd. by right.
  - intros (d & Hd & -> & Hp). exists a. split.
    + apply list_elem_of_bind. exists d. rewrite Hp. split.
      * by apply list_elem_of_singleton.
      * destruct Hd as [-> | ->]; set_solver.
    + apply in_cells. apply pair_open_iff in Hp. tauto.
Qed.

(** Adjacency, through any of the four directions. *)
Lemma passage_iff g a b :
  passage w h g a b ↔
  ∃ d, d ∈ dirs ∧ b = neighbor a d ∧ pair_open w h g a d = true.
Proof.
  assert (Hback : ∀ c d, d ∈ dirs → pair_open w h g c d = true →
            pair_open w h g (neighbor c d) (OPPOSITE d) = true).
  { intros c d Hd Hp. apply pair_open_iff in Hp as (?&?&?&?).
    apply pair_open_iff.
    rewrite neighbor_back, OPPOSITE_involutive by done. done. }
  unfold passage. rewrite !in_edges. split.
  - intros [(d & Hd & -> & Hp)|(d & Hd & -> & Hp)].
    + exists d. split; [|done]. destruct Hd as [-> | ->]; auto.
    + assert (d ∈ dirs) by (destruct Hd as [-> | ->]; auto).
      exists (OPPOSITE d). split; [by apply OPPOSITE_dir|].
      rewrite neighbor_back by done. split; [done|]. by apply Hback.
  - intros (d & Hd & -> & Hp).
    pose proof (Hback a d Hd Hp) as Hp'.
    pose proof (neighbor_back a d Hd) as Hnb.
    dir_cases Hd; autorewrite with tables in *.
    + right. exists dS. by split; [right|].
    + left. exists dS. by split; [right|].
    + left. exists dE. by split; [left|].
    + right. exists dE. by split; [left|].
Qed.

(** ** One carving step preserves the invariant *)

Lemma passages_of_zero : passages_of 0 = O.
Proof. unfold passages_of. by rewrite !open_zero. Qed.

Lemma passages_of_pair d :
  d ∈ dirs → (passages_of d + passages_of (OPPOSITE d) = 1)%nat.
Proof.
  intros Hd. unfold passages_of.
  destruct dirs_distinct as (?&?&?&?&?&?).
  dir_cases Hd; autorewrite with tables; rewrite !open_dir by auto;
    repeat case_bool_decide; simpl; first [congruence | lia].
Qed.

Lemma passages_of_lor v d :
  d ∈ dirs → open v d = false →
  passages_of (Z.lor v d) = (passages_of v + passages_of d)%nat.
Proof.
  intros Hd Hv. unfold passages_of.
  rewrite !open_lor, (open_dir d dE), (open_dir d dS) by auto.
  destruct dirs_distinct as (?&?&?&?&?&?).
  dir_cases Hd; repeat case_bool_decide; try congruence;
    rewrite ?Hv; simpl; destruct (open v dE), (open v dS); simpl; lia.
Qed.

Section Step.

Variables (r : Z * Z) (g : list Z) (calls : list (Z * Z)).
Variables (c : Z * Z) (d : Z).
Hypothesis Hinv : carved w h r g calls.
Hypothesis Hc : c ∈ calls.
Hypothesis Hd : d ∈ dirs.
Hypothesis Hn : inb (neighbor c d).
Hypothesis Hzero : cell w g (neighbor c d) = 0.

Let n := neighbor c d.
Let g' := mark w (mark w g c d) n (OPPOSITE d).

Lemma step_inb : inb c.
Proof. by apply (cv_mark _ _ _ _ _ Hinv). Qed.

Lemma step_neq : c ≠ n.
Proof. intros E. by apply (neighbor_neq c d). Qed.

Lemma step_fresh : n ∉ calls.
Proof.
  intros Hin. destruct (cv_mark _ _ _ _ _ Hinv n Hin) as [_ [H|H]].
  - by apply H.
  - rewrite H in Hc. apply list_elem_of_singleton in Hc.
    by apply step_neq.
Qed.

Lemma step_closed : open (cell w g c) d = false.
Proof.
  destruct (open (cell w g c) d) eqn:E; [|done].
  apply (cv_pair _ _ _ _ _ Hinv c d step_inb Hd) in E.
  apply pair_open_iff in E as (_&_&_&E).
  apply open_nonzero in E. by destruct E.
Qed.

Lemma step_length : length g' = Z.to_nat (w * h).
Proof.
  unfold g'. apply length_mark, length_mark, (cv_length _ _ _ _ _ Hinv).
Qed.

Lemma step_cell_n : cell w g' n = OPPOSITE d.
Proof.
  pose proof (cv_length _ _ _ _ _ Hinv) as Hlen.
  unfold g'. rewrite cell_mark_eq by (try apply length_mark; done).
  rewrite cell_mark_ne by (try done; apply step_inb || apply step_neq).
  unfold n. rewrite Hzero. apply Z.lor_0_l.
Qed.

Lemma step_cell_c : cell w g' c = Z.lor (cell w g c) d.
Proof.
  pose proof (cv_length _ _ _ _ _ Hinv) as Hlen.
  pose proof step_inb. pose proof step_neq.
  unfold g'. rewrite cell_mark_ne by (try apply length_mark; done).
  by rewrite cell_mark_eq.
Qed.

Lemma step_cell_other x :
  inb x → x ≠ c → x ≠ n → cell w g' x = cell w g x.
Proof.
  intros Hx Hxc Hxn.
  pose proof (cv_length _ _ _ _ _ Hinv) as Hlen.
  pose proof step_inb.
  unfold g'. rewrite cell_mark_ne by (try apply length_mark; done).
  by rewrite cell_mark_ne.
Qed.

(** The bits of a cell after the step. *)
Lemma step_open x d' :
  inb x → d' ∈ dirs →
  open (cell w g' x) d' =
  open (cell w g x) d' ||
  bool_decide (x = c ∧ d' = d) || bool_decide (x = n ∧ d' = OPPOSITE d).
Proof.
  intros Hx Hd'. pose proof step_neq as Hne.
  destruct (decide (x = n)) as [-> | Hxn];
    [|destruct (decide (x = c)) as [-> | Hxc]].
  - rewrite step_cell_n. unfold n. rewrite Hzero, open_zero.
    rewrite open_dir by (try apply OPPOSITE_dir; done).
    rewrite (bool_decide_eq_false_2 (neighbor c d = c ∧ _))
      by (intros [? _]; by apply Hne).
    simpl. apply bool_decide_ext. split; [intros <-|intros [_ ->]]; done.
  - rewrite step_cell_c, open_mark by done.
    rewrite (bool_decide_eq_false_2 (c = n ∧ _)) by (intros [? _]; done).
    rewrite orb_false_r. f_equal. apply bool_decide_ext.
    split; [intros ->|intros [_ ->]]; done.
  - rewrite step_cell_other by done.
    rewrite !bool_decide_eq_false_2 by (intros [? _]; done).
    by rewrite !orb_false_r.
Qed.

Lemma step_open_mono x d' :
  inb x → d' ∈ dirs →
  open (cell w g x) d' = true → open (cell w g' x) d' = true.
Proof. intros Hx Hd' H. rewrite step_open, H by done. done. Qed.

Lemma step_pair_mono x d' :
  d' ∈ dirs → pair_open w h g x d' = true → pair_open w h g' x d' = true.
Proof.
  intros Hd'. rewrite !pair_open_iff. intros (?&?&?&?).
  repeat split; try done; apply step_open_mono; try done.
  by apply OPPOSITE_dir.
Qed.

Lemma step_new_pair : pair_open w h g' c d = true.
Proof.
  apply pair_open_iff. pose proof step_inb.
  repeat split; try done.
  - rewrite step_open by done.
    rewrite (bool_decide_eq_true_2 (c = c ∧ d = d)) by done.
    by rewrite orb_true_r.
  - rewrite step_open by (try apply OPPOSITE_dir; done).
    rewrite (bool_decide_eq_true_2 (neighbor c d = n ∧ _)) by done.
    by rewrite orb_true_r.
Qed.

Lemma step_pair x d' :
  inb x → d' ∈ dirs →
  open (cell w g' x) d' = true → pair_open w h g' x d' = true.
Proof.
  intros Hx Hd'. rewrite step_open by done.
  rewrite !orb_true_iff, !bool_decide_eq_true.
  intros [[H|[-> ->]]|[-> ->]].
  - apply step_pair_mono; [done|].
    by apply (cv_pair _ _ _ _ _ Hinv).
  - apply step_new_pair.
  - pose proof step_new_pair as H. apply pair_open_iff in H.
    apply pair_open_iff. unfold n.
    rewrite neighbor_back, OPPOSITE_involutive by done. tauto.
Qed.

Lemma step_passage a b :
  passage w h g' a b →
  passage w h g a b ∨ (a = c ∧ b = n) ∨ (a = n ∧ b = c).
Proof.
  rewrite !passage_iff. intros (d' & Hd' & -> & Hp).
  apply pair_open_iff in Hp as (Ha & Hb & Hp & _).
  rewrite step_open in Hp by done.
  rewrite !orb_true_iff, !bool_decide_eq_true in Hp.
  destruct Hp as [[H|[-> ->]]|[-> ->]].
  - left. exists d'. repeat split; try done.
    by apply (cv_pair _ _ _ _ _ Hinv).
  - right. by left.
  - right. right. split; [done|]. by apply neighbor_back.
Qed.

Lemma step_isolated a :
  ¬ passage w h g a n ∧ ¬ passage w h g n a.
Proof.
  rewrite !passage_iff. split; intros (d' & Hd' & E & Hp);
    apply pair_open_iff in Hp as (_&_&H1&H2).
  - rewrite <- E in H2. apply open_nonzero in H2. by apply H2.
  - apply open_nonzero in H1. by apply H1.
Qed.

Lemma step_count :
  (sum_list (passages_of <$> g') = sum_list (passages_of <$> g) + 1)%nat.
Proof.
  pose proof (cv_length _ _ _ _ _ Hinv) as Hlen.
  pose proof step_inb as Hic. pose proof step_neq as Hne.
  pose proof (sum_mark g c d Hlen Hic) as E1.
  pose proof (sum_mark (mark w g c d) n (OPPOSITE d)
                (length_mark g Hlen c d) Hn) as E2.
  fold g' in E2.
  rewrite cell_mark_ne in E2 by done.
  unfold n in E2 at 1 2. rewrite Hzero in E2.
  rewrite Z.lor_0_l, passages_of_zero in E2.
  rewrite passages_of_lor in E1 by (done || apply step_closed).
  pose proof (passages_of_pair d Hd). lia.
Qed.

(** The invariant holds again once the neighbour has been entered. *)
Lemma carved_step : carved w h r g' (n :: calls).
Proof.
  pose proof step_inb as Hic. pose proof step_neq as Hne.
  pose proof step_fresh as Hfresh.
  split.
  - apply step_length.
  - apply step_pair.
  - intros x Hx Hnz.
    destruct (decide (x = n)) as [-> | Hxn]; [by left|]. right.
    destruct (decide (x = c)) as [-> | Hxc]; [done|].
    rewrite step_cell_other in Hnz by done.
    by apply (cv_seen _ _ _ _ _ Hinv).
  - intros x Hx. apply elem_of_cons in Hx as [-> | Hx].
    + split; [done|]. left. rewrite step_cell_n.
      by apply dir_nonzero, OPPOSITE_dir.
    + destruct (cv_mark _ _ _ _ _ Hinv x Hx) as [Hix Hm].
      split; [done|]. left.
      destruct (decide (x = c)) as [-> | Hxc].
      * rewrite step_cell_c. by apply lor_nonzero, dir_nonzero.
      * destruct Hm as [Hm|Hm].
        -- rewrite step_cell_other; [done..|]. by intros ->.
        -- rewrite Hm in Hc. apply list_elem_of_singleton in Hc.
           by destruct Hxc.
  - apply NoDup_cons. split; [done|]. apply (cv_nodup _ _ _ _ _ Hinv).
  - rewrite step_count. simpl.
    pose proof (cv_count _ _ _ _ _ Hinv). lia.
  - assert (Hmono : ∀ a b, passage w h g a b → passage w h g' a b).
    { intros a b. rewrite !passage_iff. intros (d' & ? & ? & ?).
      exists d'. repeat split; try done. by apply step_pair_mono. }
    intros x Hx. apply elem_of_cons in Hx as [-> | Hx].
    + eapply rtc_r.
      * eapply rtc_subrel; [apply Hmono|].
        by apply (cv_reach _ _ _ _ _ Hinv).
      * apply passage_iff. exists d. pose proof step_new_pair. done.
    + eapply rtc_subrel; [apply Hmono|].
      by apply (cv_reach _ _ _ _ _ Hinv).
  - apply (acyclic_add_leaf (passage w h g) _ c n).
    + apply (cv_acyclic _ _ _ _ _ Hinv).
    + done.
    + apply step_passage.
    + intros a. apply step_isolated.
    + intros a. apply step_isolated.
Qed.

End Step.

(** ** The carver *)

Lemma bounds_check x y d :
  (0 <=? y + DY d) && (y + DY d <=? h - 1) &&
  (0 <=? x + DX d) && (x + DX d <=? w - 1)
  = in_bounds w h (neighbor (x, y) d).
Proof.
  unfold in_bounds, neighbor; simpl.
  repeat match goal with
         | |- context [?a <=? ?b] => destruct (Z.leb_spec a b)
         | |- context [?a <? ?b] => destruct (Z.ltb_spec a b)
         end; simpl; try reflexivity; lia.
Qed.

Lemma length_cells : length (cells w h) = Z.to_nat (w * h).
Proof. unfold cells. by rewrite length_fmap, length_seqZ. Qed.

Lemma calls_bounded r g calls :
  carved w h r g calls → (length calls ≤ Z.to_nat (w * h))%nat.
Proof.
  intros Hinv. rewrite <- length_cells. apply submseteq_length.
  apply NoDup_submseteq; [apply (cv_nodup _ _ _ _ _ Hinv)|].
  intros c Hc. apply in_cells. by apply (cv_mark _ _ _ _ _ Hinv).
Qed.

Lemma finished_mono calls calls' c :
  finished w h calls c → (∀ x, x ∈ calls → x ∈ calls') →
  finished w h calls' c.
Proof. intros Hf Hsub d Hd Hb. by apply Hsub, Hf. Qed.

(** The grid after [_grid[index(x,y)] |= direction;
    _grid[index(dx,dy)] |= OPPOSITE[direction]]. *)
Lemma carve_writes g c d :
  length g = Z.to_nat (w * h) → inb c → inb (neighbor c d) →
  (cur ← arr_get g (index w c.1 c.2);
   g1 ← arr_set g (index w c.1 c.2) (Z.lor cur d);
   nbv ← arr_get g1 (index w (neighbor c d).1 (neighbor c d).2);
   arr_set g1 (index w (neighbor c d).1 (neighbor c d).2)
     (Z.lor nbv (OPPOSITE d)))
  = Some (mark w (mark w g c d) (neighbor c d) (OPPOSITE d)).
Proof.
  intros Hlen Hc Hn.
  rewrite (cell_get g Hlen c Hc). cbn [mbind option_bind].
  rewrite (mark_set g Hlen c d Hc). cbn [mbind option_bind].
  pose proof (length_mark g Hlen c d) as Hlen1.
  rewrite (cell_get _ Hlen1 _ Hn). cbn [mbind option_bind].
  by rewrite (mark_set _ Hlen1 _ _ Hn).
Qed.

Lemma carve_loop_spec r recurse budget x y :
  (∀ x' y' st,
     carved w h r (st_grid st) ((x', y') :: st_calls st) →
     (Z.to_nat (w * h) ≤ length (st_calls st) + budget)%nat →
     ∃ st', recurse x' y' st = Some st' ∧
            ∃ new, extends w h r st st' (new ++ [(x', y')])) →
  ∀ ds st,
    (∀ d, d ∈ ds → d ∈ dirs) →
    carved w h r (st_grid st) (st_calls st) →
    (x, y) ∈ st_calls st →
    (Z.to_nat (w * h) ≤ length (st_calls st) + budget)%nat →
    ∃ st', carve_loop w h recurse x y ds st = Some st' ∧
           ∃ new, extends w h r st st' new ∧
                  ∀ d, d ∈ ds → inb (neighbor (x, y) d) →
                       neighbor (x, y) d ∈ st_calls st'.
Proof.
  intros Hrec. induction ds as [|d rest IH]; intros st Hds Hinv Hxy Hfuel.
  - exists st. split; [done|]. exists []. split.
    + split; [done|]. split; [done|]. split.
      * intros c Hc. by apply elem_of_nil in Hc.
      * simpl. rewrite Nat.add_0_r. by destruct (st_rng st).
    + intros d Hd. by apply elem_of_nil in Hd.
  - assert (Hd : d ∈ dirs) by (apply Hds; left).
    assert (Hrest : ∀ d', d' ∈ rest → d' ∈ dirs)
      by (intros; apply Hds; by right).
    cbn [carve_loop]. rewrite bounds_check.
    destruct (in_bounds w h (neighbor (x, y) d)) eqn:Hb.
    + pose proof (cv_length _ _ _ _ _ Hinv) as Hlen.
      change (x + DX d) with (neighbor (x, y) d).1.
      change (y + DY d) with (neighbor (x, y) d).2.
      rewrite (cell_get _ Hlen _ Hb). cbn [mbind option_bind].
      destruct (Z.eqb_spec (cell w (st_grid st) (neighbor (x, y) d)) 0)
        as [Hz|Hnz].
      * pose proof (cv_mark _ _ _ _ _ Hinv _ Hxy) as [Hic _].
        pose proof (carve_writes (st_grid st) (x, y) d Hlen Hic Hb) as Hwr.
        cbn [fst snd] in Hwr.
        set (g2 := mark w (mark w (st_grid st) (x, y) d)
                     (neighbor (x, y) d) (OPPOSITE d)) in *.
        destruct (arr_get (st_grid st) (index w x y)) as [cur|];
          [|discriminate].
        cbn [mbind option_bind] in *.
        destruct (arr_set (st_grid st) (index w x y) (Z.lor cur d))
          as [g1|]; [|discriminate].
        cbn [mbind option_bind] in *.
        destruct (arr_get g1 _) as [nbv|]; [|discriminate].
        cbn [mbind option_bind] in *. rewrite Hwr.
        cbn [mbind option_bind].
        pose proof (carved_step r _ _ (x, y) d Hinv Hxy Hd Hb Hz) as Hstep.
        fold g2 in Hstep.
        destruct (Hrec (neighbor (x, y) d).1 (neighbor (x, y) d).2
                    {| st_grid := g2; st_rng := st_rng st;
                       st_calls := st_calls st |})
          as (st1 & -> & new1 & Hc1 & Hinv1 & Hfin1 & Hrng1).
        { exact Hstep. }
        { done. }
        cbn [mbind option_bind].
        cbn [st_grid st_rng st_calls] in Hc1, Hrng1.
        change ((neighbor (x, y) d).1, (neighbor (x, y) d).2)
          with (neighbor (x, y) d) in *.
        destruct (IH st1 Hrest Hinv1) as (st' & -> & new2 & Hext & Hnb).
        { rewrite Hc1. apply elem_of_app. by right. }
        { rewrite Hc1, !length_app. simpl. lia. }
        destruct Hext as (Hc2 & Hinv2 & Hfin2 & Hrng2).
        exists st'. split; [done|].
        exists (new2 ++ new1 ++ [neighbor (x, y) d]). split.
        -- split; [|split; [|split]].
           ++ rewrite Hc2, Hc1. by rewrite <- !app_assoc.
           ++ done.
           ++ intros c Hc. apply elem_of_app in Hc as [Hc|Hc]; [auto|].
              eapply finished_mono; [by apply Hfin1|].
              intros c' Hc'. rewrite Hc2. apply elem_of_app. by right.
           ++ rewrite Hrng2, Hrng1. simpl. f_equal.
              rewrite !length_app. simpl. lia.
        -- intros d' Hd' Hb'. apply elem_of_cons in Hd' as [-> | Hd'].
           ++ rewrite Hc2, Hc1, !elem_of_app, list_elem_of_singleton.
              right. left. by right.
           ++ by apply Hnb.
      * destruct (IH st Hrest Hinv Hxy Hfuel) as (st' & -> & new & Hext & Hnb).
        exists st'. split; [done|]. exists new. split; [done|].
        intros d' Hd' Hb'. apply elem_of_cons in Hd' as [-> | Hd'].
        -- destruct Hext as (-> & _). apply elem_of_app. right.
           by apply (cv_seen _ _ _ _ _ Hinv).
        -- by apply Hnb.
    + destruct (IH st Hrest Hinv Hxy Hfuel) as (st' & -> & new & Hext & Hnb).
      exists st'. split; [done|]. exists new. split; [done|].
      intros d' Hd' Hb'. apply elem_of_cons in Hd' as [-> | Hd'].
      * congruence.
      * by apply Hnb.
Qed.

(** A call of [create_passage_from] on a cell that is not yet in the
    log returns, whenever the depth bound covers the cells that are
    left. *)
Lemma create_passage_from_spec r fuel : ∀ x y st,
  carved w h r (st_grid st) ((x, y) :: st_calls st) →
  (Z.to_nat (w * h) ≤ length (st_calls st) + fuel)%nat →
  ∃ st', create_passage_from w h fuel x y st = Some st' ∧
         ∃ new, extends w h r st st' (new ++ [(x, y)]).
Proof.
  induction fuel as [|fuel IH]; intros x y st Hinv Hfuel.
  - apply calls_bounded in Hinv. simpl in Hinv. lia.
  - cbn [create_passage_from].
    destruct (shuffle_ok (st_rng st)) as (ds & -> & Hperm).
    cbn [mbind option_bind].
    destruct (carve_loop_spec r (create_passage_from w h fuel) fuel x y IH ds
                {| st_grid := st_grid st;
                   st_rng := ((st_rng st).1, ((st_rng st).2 + 4)%nat);
                   st_calls := (x, y) :: st_calls st |})
      as (st' & -> & new & (Hc & Hinv' & Hfin & Hrng) & Hnb).
    { intros d Hd. by rewrite <- Hperm. }
    { done. }
    { by left. }
    { simpl. lia. }
    cbn [st_grid st_rng st_calls fst snd] in *.
    exists st'. split; [done|]. exists new.
    split; [|split; [|split]].
    + rewrite Hc. by rewrite <- app_assoc.
    + done.
    + intros c Hin. apply elem_of_app in Hin as [Hin|Hin]; [auto|].
      apply list_elem_of_singleton in Hin as ->.
      intros d Hd Hb. apply Hnb; [|done]. by rewrite Hperm.
    + rewrite Hrng. f_equal. rewrite length_app. simpl. lia.
Qed.

(** A set of cells that contains [(0,0)] and is closed under the
    neighbours inside the grid contains every cell. *)
Lemma grid_closure (P : Z * Z → Prop) :
  P (0, 0) →
  (∀ c d, P c → d ∈ dirs → inb (neighbor c d) → P (neighbor c d)) →
  ∀ c, inb c → P c.
Proof.
  intros H0 Hstep.
  assert (Hrow : ∀ n, (0 ≤ Z.of_nat n < w) → P (Z.of_nat n, 0)).
  { induction n as [|n IHn]; intros Hn; [done|].
    replace (Z.of_nat (S n), 0) with (neighbor (Z.of_nat n, 0) dE).
    - apply Hstep; [apply IHn; lia|auto|].
      apply in_bounds_iff. unfold neighbor. simpl.
      rewrite DX_E, DY_E. lia.
    - unfold neighbor. simpl. rewrite DX_E, DY_E. f_equal; lia. }
  assert (Hcol : ∀ m n, (0 ≤ Z.of_nat n < w) → (0 ≤ Z.of_nat m < h) →
                        P (Z.of_nat n, Z.of_nat m)).
  { induction m as [|m IHm]; intros n Hn Hm; [by apply Hrow|].
    replace (Z.of_nat n, Z.of_nat (S m))
      with (neighbor (Z.of_nat n, Z.of_nat m) dS).
    - apply Hstep; [apply IHm; lia|auto|].
      apply in_bounds_iff. unfold neighbor. simpl.
      rewrite DX_S, DY_S. lia.
    - unfold neighbor. simpl. rewrite DX_S, DY_S. f_equal; lia. }
  intros [x y] Hc. apply in_bounds_iff in Hc. simpl in Hc.
  rewrite <- (Z2Nat.id x), <- (Z2Nat.id y) by lia.
  apply Hcol; lia.
Qed.

Lemma cell_replicate c : cell w (replicate (Z.to_nat (w * h)) 0) c = 0.
Proof.
  unfold cell, arr_get.
  destruct (Z.ltb_spec (index w c.1 c.2) 0); [done|].
  destruct (replicate _ _ !! _) as [v|] eqn:E; [|done].
  apply lookup_replicate in E as [-> _]. done.
Qed.

(** The invariant holds when the first call has just been entered. *)
Lemma carved_start :
  carved w h (0, 0) (replicate (Z.to_nat (w * h)) 0) [(0, 0)].
Proof.
  assert (Hno : ∀ a b, ¬ passage w h (replicate (Z.to_nat (w * h)) 0) a b).
  { intros a b Hp. apply passage_iff in Hp as (d & _ & _ & Hp).
    apply pair_open_iff in Hp as (_ & _ & Hp & _).
    by rewrite cell_replicate, open_zero in Hp. }
  split.
  - apply length_replicate.
  - intros c d _ _. by rewrite cell_replicate, open_zero.
  - intros c _. by rewrite cell_replicate.
  - intros c Hc. apply list_elem_of_singleton in Hc as ->. split.
    + apply in_bounds_iff. simpl. lia.
    + by right.
  - apply NoDup_singleton.
  - simpl. rewrite (sum_list_fmap_same 0).
    + lia.
    + apply Forall_forall. intros v Hv.
      apply elem_of_replicate in Hv as [-> _]. apply passages_of_zero.
  - intros c Hc. apply list_elem_of_singleton in Hc as ->. done.
  - by apply acyclic_empty.
Qed.

(** ** The carved grid *)

Lemma NoDup_cells : NoDup (cells w h).
Proof.
  unfold cells. apply NoDup_fmap_2_strong; [|apply NoDup_seqZ].
  intros k k' _ _ [= Hm Hd].
  rewrite (Z.div_mod k w), (Z.div_mod k' w) by lia. by rewrite Hm, Hd.
Qed.

Lemma cells_values g :
  length g = Z.to_nat (w * h) → cell w g <$> cells w h = g.
Proof.
  intros Hlen. unfold cells. rewrite <- list_fmap_compose.
  apply list_eq. intros i. rewrite list_lookup_fmap.
  destruct (decide (i < length g)%nat) as [Hi|Hi].
  - rewrite lookup_seqZ_lt by lia. simpl. unfold cell, index. simpl.
    replace (0 + Z.of_nat i) with (Z.of_nat i) by lia.
    rewrite (Z.mul_comm _ w), <- Z.div_mod by lia.
    unfold arr_get.
    destruct (Z.ltb_spec (Z.of_nat i) 0); [lia|]. rewrite Nat2Z.id.
    destruct (lookup_lt_is_Some_2 g i Hi) as [v ->]. done.
  - rewrite lookup_seqZ_ge by lia. simpl. symmetry.
    apply lookup_ge_None. lia.
Qed.

Lemma length_bind_sum {A B} (f : A → list B) (l : list A) :
  length (l ≫= f) = sum_list ((λ a, length (f a)) <$> l).
Proof.
  induction l as [|a l IH]; [done|].
  change ((a :: l) ≫= f) with (f a ++ (l ≫= f)).
  rewrite length_app, IH. done.
Qed.

Lemma length_edges r g calls :
  carved w h r g calls →
  length (edges w h g) = sum_list (passages_of <$> g).
Proof.
  intros Hinv. pose proof (cv_length _ _ _ _ _ Hinv) as Hlen.
  unfold edges. rewrite length_bind_sum.
  trans (sum_list (passages_of <$> (cell w g <$> cells w h)));
    [|by rewrite cells_values].
  rewrite <- list_fmap_compose. f_equal. apply list_fmap_ext. intros i c Hc.
  apply list_elem_of_lookup_2, in_cells in Hc.
  assert (Heq : ∀ d, d ∈ dirs →
            pair_open w h g c d = open (cell w g c) d).
  { intros d Hd. destruct (open (cell w g c) d) eqn:E.
    - by apply (cv_pair _ _ _ _ _ Hinv).
    - destruct (pair_open w h g c d) eqn:E'; [|done].
      apply pair_open_iff in E'. destruct E' as (_&_&E'&_). congruence. }
  simpl. unfold passages_of. rewrite !Heq by auto.
  destruct (open (cell w g c) dE), (open (cell w g c) dS); done.
Qed.

Lemma passage_sym g a b : passage w h g a b → passage w h g b a.
Proof. unfold passage. tauto. Qed.

Lemma rtc_sym {A} (R : A → A → Prop) a b :
  (∀ x y, R x y → R y x) → rtc R a b → rtc R b a.
Proof.
  intros Hsym Hab. induction Hab as [|a b c Hab _ IH]; [done|].
  eapply rtc_r; [exact IH|]. by apply Hsym.
Qed.

(** The state in which the carver leaves the grid. *)
Lemma carve_result fuel seed :
  (Z.to_nat (w * h) ≤ fuel)%nat →
  ∃ st, carve fuel w h seed = Some st ∧
        carved w h (0, 0) (st_grid st) (st_calls st) ∧
        (∀ c, inb c → c ∈ st_calls st) ∧
        length (st_calls st) = Z.to_nat (w * h) ∧
        st_rng st = (seed, (4 * Z.to_nat (w * h))%nat).
Proof.
  intros Hfuel. unfold carve, Maze_new. cbn [_grid].
  destruct (create_passage_from_spec (0, 0) fuel 0 0
              {| st_grid := replicate (Z.to_nat (w * h)) 0;
                 st_rng := srand seed; st_calls := [] |})
    as (st & Hrun & new & Hc & Hinv & Hfin & Hrng).
  { apply carved_start. }
  { simpl. lia. }
  cbn [st_grid st_rng st_calls] in *. rewrite app_nil_r in Hc.
  exists st. split; [done|]. split; [done|].
  assert (Hall : ∀ c, inb c → c ∈ st_calls st).
  { apply grid_closure.
    - rewrite Hc. apply elem_of_app. right. by left.
    - intros c d Hin Hd Hb. rewrite Hc in Hin. by apply (Hfin c). }
  assert (Hlen : length (st_calls st) = Z.to_nat (w * h)).
  { apply Nat.le_antisymm; [by eapply calls_bounded|].
    rewrite <- length_cells. apply submseteq_length.
    apply NoDup_submseteq; [apply NoDup_cells|].
    intros c Hin. by apply Hall, in_cells. }
  repeat split; [done..|].
  rewrite Hrng. unfold srand. simpl. f_equal.
  rewrite Hc in Hlen. lia.
Qed.

Lemma carved_spanning_tree g calls :
  carved w h (0, 0) g calls →
  length calls = Z.to_nat (w * h) →
  (∀ c, inb c → c ∈ calls) →
  spanning_tree w h g.
Proof.
  intros Hinv Hlen Hall. split; [|split].
  - intros a b Ha Hb. trans (0, 0).
    + apply rtc_sym; [apply passage_sym|].
      apply (cv_reach _ _ _ _ _ Hinv). by apply Hall.
    + apply (cv_reach _ _ _ _ _ Hinv). by apply Hall.
  - rewrite (length_edges _ _ _ Hinv).
    pose proof (cv_count _ _ _ _ _ Hinv). lia.
  - apply (cv_acyclic _ _ _ _ _ Hinv).
Qed.

(** ** The renderer *)

Lemma append_cons x (a b : string) : String x a +:+ b = String x (a +:+ b).
Proof. reflexivity. Qed.

Lemma append_nil_l (b : string) : "" +:+ b = b.
Proof. reflexivity. Qed.

Lemma append_assoc (a b c : string) : (a +:+ b) +:+ c = a +:+ b +:+ c.
Proof.
  induction a as [|x a IH]; [done|]. by rewrite !append_cons, IH.
Qed.

Lemma append_nil_r (a : string) : a +:+ "" = a.
Proof. induction a as [|x a IH]; [done|]. by rewrite append_cons, IH. Qed.

Lemma rendered_app a b : rendered (a ++ b) = rendered a +:+ rendered b.
Proof.
  induction a as [|[s|x y] a IH]; simpl; [done| |done].
  by rewrite IH, append_assoc.
Qed.

Lemma lookups_app a b : lookups (a ++ b) = lookups a ++ lookups b.
Proof.
  induction a as [|[s|x y] a IH]; simpl; [done|done|]. by rewrite IH.
Qed.

Lemma rendered_replicate n s :
  rendered (replicate n (Out s)) = join (replicate n s).
Proof. induction n as [|n IH]; simpl; [done|]. by rewrite IH. Qed.

Lemma lookups_replicate n s : lookups (replicate n (Out s)) = [].
Proof. induction n as [|n IH]; simpl; done. Qed.

Lemma for_range_spec (Q : Z * Z → Prop) (txt : Z → string) body n :
  ∀ i,
    (∀ k, i ≤ k < i + Z.of_nat n →
          ∃ e, body k = Some e ∧ rendered e = txt k ∧
               Forall Q (lookups e)) →
    ∃ es, for_range n i body = Some es ∧
          rendered es = join (txt <$> seqZ i (Z.of_nat n)) ∧
          Forall Q (lookups es).
Proof.
  induction n as [|n IH]; intros i Hbody.
  - exists []. by repeat split.
  - destruct (Hbody i ltac:(lia)) as (e & He & Ht & Hq).
    destruct (IH (i + 1)) as (es & Hes & Hts & Hqs).
    { intros k Hk. apply Hbody. lia. }
    exists (e ++ es). cbn [for_range]. rewrite He, Hes.
    split; [done|]. split.
    + rewrite rendered_app, Ht, Hts, (seqZ_cons i) by lia.
      replace (Z.pred (Z.of_nat (S n))) with (Z.of_nat n) by lia.
      replace (Z.succ i) with (i + 1) by lia. done.
    + rewrite lookups_app. by apply Forall_app.
Qed.

Lemma draw_cell_spec m i j :
  _width m = w → _height m = h → drawable m → inb (i, j) →
  ∃ e, draw_cell m i j = Some e ∧
       rendered e = floor_glyph w (_grid m) i j +:+
                    east_glyph w h (_grid m) i j ∧
       Forall (λ c, inb c) (lookups e).
Proof.
  intros Ew Eh [Hlen Hborder] Hc. rewrite Ew, Eh in *.
  unfold draw_cell. rewrite Ew.
  pose proof (cell_get _ Hlen (i, j) Hc) as Hg. cbn [fst snd] in Hg.
  rewrite Hg. cbn [mbind option_bind].
  unfold floor_glyph, east_glyph.
  change (negb (Z.land (cell w (_grid m) (i, j)) dE =? 0))
    with (open (cell w (_grid m) (i, j)) dE).
  change (negb (Z.land (cell w (_grid m) (i, j)) dS =? 0))
    with (open (cell w (_grid m) (i, j)) dS).
  destruct (open (cell w (_grid m) (i, j)) dE) eqn:HE.
  - pose proof (Hborder _ Hc HE) as Hn.
    unfold neighbor in Hn. rewrite DX_E, DY_E in Hn. simpl in Hn.
    replace (j + 0) with j in Hn by lia.
    pose proof (cell_get _ Hlen (i + 1, j) Hn) as Hg'.
    cbn [fst snd] in Hg'. rewrite Hg'. cbn [mbind option_bind].
    eexists. split; [done|]. split.
    + change (negb (Z.land ?v dS =? 0)) with (open v dS).
      rewrite open_lor, Hn. simpl.
      destruct (open (cell w (_grid m) (i, j)) dS),
               (open (cell w (_grid m) (i + 1, j)) dS); done.
    + destruct (open (cell w (_grid m) (i, j)) dS), (negb _); simpl;
        repeat constructor; done.
  - eexists. split; [done|]. split.
    + simpl. destruct (open (cell w (_grid m) (i, j)) dS); done.
    + destruct (open (cell w (_grid m) (i, j)) dS); simpl;
        repeat constructor; done.
Qed.

Lemma draw_row_spec m j :
  _width m = w → _height m = h → drawable m → 0 ≤ j < h →
  ∃ e, draw_row m j = Some e ∧ rendered e = row_text m j ∧
       Forall (λ c, inb c) (lookups e).
Proof.
  intros Ew Eh Hm Hj. unfold draw_row, row_text. rewrite Ew, Eh.
  destruct (for_range_spec (λ c, inb c)
              (λ i, floor_glyph w (_grid m) i j +:+
                    east_glyph w h (_grid m) i j)
              (λ i, draw_cell m i j) (Z.to_nat w) 0)
    as (es & -> & Ht & Hq).
  { intros k Hk. apply draw_cell_spec; try done.
    apply in_bounds_iff. simpl. lia. }
  cbn [mbind option_bind]. eexists. split; [done|].
  rewrite Z2Nat.id in Ht by lia. split.
  - cbn [rendered]. by rewrite rendered_app, Ht.
  - cbn [lookups]. rewrite lookups_app. apply Forall_app. by split.
Qed.

Lemma draw_spec m :
  _width m = w → _height m = h → drawable m →
  ∃ es, draw m = Some es ∧ rendered es = diagram m ∧
        Forall (λ c, inb c) (lookups es).
Proof.
  intros Ew Eh Hm. unfold draw, diagram.
  destruct (for_range_spec (λ c, inb c) (row_text m) (draw_row m)
              (Z.to_nat (_height m)) 0)
    as (es & -> & Ht & Hq).
  { intros k Hk. apply draw_row_spec; try done. lia. }
  cbn [mbind option_bind]. eexists. split; [done|].
  rewrite Z2Nat.id in Ht by lia. split.
  - cbn [rendered]. rewrite rendered_app, rendered_replicate.
    rewrite rendered_app. cbn [rendered]. rewrite rendered_app, Ht.
    unfold top_text, metadata_text. cbn [rendered].
    rewrite !append_assoc, append_nil_r. done.
  - cbn [lookups]. rewrite lookups_app, lookups_replicate.
    rewrite !lookups_app. cbn [lookups]. simpl.
    rewrite app_nil_r. done.
Qed.

(** ** The maze built by the constructor *)

Lemma BackTracker_result seed :
  ∃ st, carve (S (Z.to_nat (w * h))) w h seed = Some st ∧
        BackTracker w h seed
        = Some {| _width := w; _height := h; _seed := seed;
                  _grid := st_grid st |} ∧
        carved w h (0, 0) (st_grid st) (st_calls st) ∧
        (∀ c, inb c → c ∈ st_calls st) ∧
        length (st_calls st) = Z.to_nat (w * h).
Proof.
  destruct (carve_result (S (Z.to_nat (w * h))) seed ltac:(lia))
    as (st & Hrun & Hinv & Hall & Hlen & _).
  exists st. unfold BackTracker. rewrite Hrun. done.
Qed.

Lemma carved_drawable r g calls seed :
  carved w h r g calls →
  drawable {| _width := w; _height := h; _seed := seed; _grid := g |}.
Proof.
  intros Hinv. split; simpl.
  - apply (cv_length _ _ _ _ _ Hinv).
  - intros c Hc HE.
    apply (cv_pair _ _ _ _ _ Hinv c dE Hc dirs_E) in HE.
    apply pair_open_iff in HE. tauto.
Qed.

Lemma BackTracker_drawn seed :
  ∃ st es,
    BackTracker w h seed
    = Some {| _width := w; _height := h; _seed := seed;
              _grid := st_grid st |} ∧
    carved w h (0, 0) (st_grid st) (st_calls st) ∧
    draw {| _width := w; _height := h; _seed := seed;
            _grid := st_grid st |} = Some es ∧
    rendered es = diagram {| _width := w; _height := h; _seed := seed;
                             _grid := st_grid st |} ∧
    Forall (λ c, inb c) (lookups es).
Proof.
  destruct (BackTracker_result seed) as (st & _ & Hbt & Hinv & _).
  destruct (draw_spec {| _width := w; _height := h; _seed := seed;
                         _grid := st_grid st |})
    as (es & Hes & Ht & Hq); try done.
  - by eapply carved_drawable.
  - by exists st, es.
Qed.

(** C1. For every width >= 1, height >= 1 and seed, the constructor
    returns, and the passage graph of the grid it leaves is connected,
    has exactly width*height - 1 edges and has no cycle: it is a
    spanning tree of the grid. *)
Theorem carving_spanning_tree seed :
  ∃ g, BackTracker w h seed
       = Some {| _width := w; _height := h; _seed := seed; _grid := g |} ∧
       spanning_tree w h g.
Proof.
  destruct (BackTracker_result seed) as (st & _ & Hbt & Hinv & Hall & Hlen).
  exists (st_grid st). split; [done|].
  by eapply carved_spanning_tree.
Qed.

(** C4. After carving, a cell has the passage bit of a direction if and
    only if its neighbour in that direction is in the grid and has the
    bit of the opposite direction. *)
Theorem carving_symmetric seed :
  ∃ g, BackTracker w h seed
       = Some {| _width := w; _height := h; _seed := seed; _grid := g |} ∧
       ∀ c d, in_bounds w h c = true → d ∈ dirs →
         (open (cell w g c) d = true ↔
          in_bounds w h (neighbor c d) = true ∧
          open (cell w g (neighbor c d)) (OPPOSITE d) = true).
Proof.
  destruct (BackTracker_result seed) as (st & _ & Hbt & Hinv & _).
  exists (st_grid st). split; [done|]. intros c d Hc Hd. split.
  - intros Ho. apply (cv_pair _ _ _ _ _ Hinv c d Hc Hd) in Ho.
    apply pair_open_iff in Ho. tauto.
  - intros [Hn Ho].
    apply (cv_pair _ _ _ _ _ Hinv _ _ Hn (OPPOSITE_dir d Hd)) in Ho.
    apply pair_open_iff in Ho as (_ & _ & _ & Ho).
    by rewrite neighbor_back, OPPOSITE_involutive in Ho.
Qed.

(** C9. For every width >= 1, height >= 1 and seed, carving returns
    within a nesting depth of width*height calls, and
    [create_passage_from] is entered at most width*height times. *)
Theorem carving_terminates seed fuel :
  (Z.to_nat (w * h) ≤ fuel)%nat →
  ∃ st, carve fuel w h seed = Some st ∧
        Z.of_nat (length (st_calls st)) ≤ w * h.
Proof.
  intros Hfuel.
  destruct (carve_result fuel seed Hfuel) as (st & Hrun & _ & _ & Hlen & _).
  exists st. split; [done|]. lia.
Qed.

(** C10. After carving no border cell has an outward passage bit, and
    every call of [index] made by [draw], the East-neighbour lookup
    [index(i+1, j)] included, is on coordinates inside the grid. *)
Theorem carving_border_closed seed :
  ∃ m, BackTracker w h seed = Some m ∧
       (∀ x y, in_bounds w h (x, y) = true →
          (x = w - 1 → open (cell w (_grid m) (x, y)) dE = false) ∧
          (x = 0 → open (cell w (_grid m) (x, y)) dW = false) ∧
          (y = 0 → open (cell w (_grid m) (x, y)) dN = false) ∧
          (y = h - 1 → open (cell w (_grid m) (x, y)) dS = false)) ∧
       ∃ es, draw m = Some es ∧
             Forall (λ c, in_bounds w h c = true) (lookups es).
Proof.
  destruct (BackTracker_drawn seed) as (st & es & Hbt & Hinv & Hes & _ & Hq).
  eexists. split; [exact Hbt|]. split.
  - intros x y Hc. simpl.
    assert (Hout : ∀ d, d ∈ dirs →
              in_bounds w h (neighbor (x, y) d) = false →
              open (cell w (st_grid st) (x, y)) d = false).
    { intros d Hd Hn.
      destruct (open (cell w (st_grid st) (x, y)) d) eqn:E; [|done].
      apply (cv_pair _ _ _ _ _ Hinv _ _ Hc Hd) in E.
      apply pair_open_iff in E. destruct E as (_ & E & _). congruence. }
    repeat split; intros ->; apply Hout; auto;
      apply not_true_is_false; rewrite in_bounds_iff;
      unfold neighbor; simpl; autorewrite with tables; lia.
  - by exists es.
Qed.

(** C8. The text drawn for a carved maze is the top line, the rows and
    the metadata line, where in each row, for each cell from left to
    right, the glyph after the floor glyph is a space when the cell has
    an East passage and the cell or its East neighbour has a South
    passage, an underscore when it has an East passage and neither has
    a South passage, and a bar when it has no East passage. *)
Theorem draw_east_rule seed :
  ∃ m es, BackTracker w h seed = Some m ∧ draw m = Some es ∧
          rendered es = diagram m.
Proof.
  destruct (BackTracker_drawn seed) as (st & es & Hbt & _ & Hes & Ht & _).
  by eexists _, es.
Qed.

(** ** More on the carved grid *)

(** X1. Carving consumes exactly four random draws per cell of the grid:
    [rand] has been called 4 * width * height times when the constructor
    returns. *)
Theorem carving_draw_count seed fuel :
  (Z.to_nat (w * h) ≤ fuel)%nat →
  ∃ st, carve fuel w h seed = Some st ∧
        st_rng st = (seed, (4 * Z.to_nat (w * h))%nat).
Proof.
  intros Hfuel.
  destruct (carve_result fuel seed Hfuel) as (st & Hrun & _ & _ & _ & Hrng).
  by exists st.
Qed.

Lemma carve_first_call fuel seed st :
  (Z.to_nat (w * h) ≤ fuel)%nat →
  carve fuel w h seed = Some st → last (st_calls st) = Some (0, 0).
Proof.
  intros Hfuel. unfold carve, Maze_new. cbn [_grid].
  destruct (create_passage_from_spec (0, 0) fuel 0 0
              {| st_grid := replicate (Z.to_nat (w * h)) 0;
                 st_rng := srand seed; st_calls := [] |})
    as (st' & -> & new & Hc & _).
  { apply carved_start. }
  { simpl. lia. }
  intros [= <-]. rewrite Hc. cbn [st_calls].
  by rewrite app_nil_r, last_snoc.
Qed.

(** X2. Carving enters every cell of the grid exactly once, the cell
    (0,0) first: the log of the calls of [create_passage_from] has no
    repetition, holds exactly the coordinates inside the grid, and its
    oldest entry is (0,0). *)
Theorem carving_enters_each_cell_once seed fuel :
  (Z.to_nat (w * h) ≤ fuel)%nat →
  ∃ st, carve fuel w h seed = Some st ∧
        NoDup (st_calls st) ∧
        (∀ c, c ∈ st_calls st ↔ in_bounds w h c = true) ∧
        last (st_calls st) = Some (0, 0).
Proof.
  intros Hfuel.
  destruct (carve_result fuel seed Hfuel) as (st & Hrun & Hinv & Hall & _).
  exists st. split; [done|]. split; [apply (cv_nodup _ _ _ _ _ Hinv)|].
  split; [|by eapply carve_first_call].
  intros c. split; [|apply Hall].
  intros Hc. by apply (cv_mark _ _ _ _ _ Hinv).
Qed.

(** *** Cell values are sets of direction bits *)

Lemma land_lor_l a b : Z.land a (Z.lor a b) = a.
Proof.
  apply Z.bits_inj'. intros n _. rewrite Z.land_spec, Z.lor_spec.
  by destruct (Z.testbit a n), (Z.testbit b n).
Qed.

Lemma land_lor_r a b c : Z.land a c = a → Z.land a (Z.lor b c) = a.
Proof.
  intros H. apply Z.bits_inj'. intros n _.
  apply (f_equal (λ x, Z.testbit x n)) in H.
  rewrite Z.land_spec in H. rewrite Z.land_spec, Z.lor_spec.
  by destruct (Z.testbit a n), (Z.testbit b n), (Z.testbit c n).
Qed.

Lemma dir_in_mask d : d ∈ dirs → Z.land d direction_mask = d.
Proof.
  intros Hd. unfold direction_mask.
  dir_cases Hd;
    repeat first [apply land_lor_l | apply Z.land_diag | apply land_lor_r].
Qed.

Lemma mask_closed v d :
  d ∈ dirs → Z.land v direction_mask = v →
  Z.land (Z.lor v d) direction_mask = Z.lor v d.
Proof.
  intros Hd Hv. by rewrite Z.land_lor_distr_l, Hv, dir_in_mask.
Qed.

Lemma arr_set_Forall (P : Z → Prop) a i v a' :
  Forall P a → P v → arr_set a i v = Some a' → Forall P a'.
Proof.
  intros Ha Hv. unfold arr_set. destruct (_ && _); [|done].
  intros [= <-]. by apply Forall_insert.
Qed.

Lemma arr_get_Forall (P : Z → Prop) a i v :
  Forall P a → arr_get a i = Some v → P v.
Proof.
  intros Ha Hg. apply arr_get_Some in Hg as [_ Hg].
  by eapply Forall_lookup_1.
Qed.

Lemma carve_loop_values (P : Z → Prop) recurse x y :
  (∀ v d, P v → d ∈ dirs → P (Z.lor v d)) →
  (∀ x' y' st st', Forall P (st_grid st) → recurse x' y' st = Some st' →
                   Forall P (st_grid st')) →
  ∀ ds st st',
    (∀ d, d ∈ ds → d ∈ dirs) → Forall P (st_grid st) →
    carve_loop w h recurse x y ds st = Some st' → Forall P (st_grid st').
Proof.
  intros Hlor Hrec. induction ds as [|d ds IH]; intros st st' Hds HP.
  - cbn. by intros [= <-].
  - assert (Hd : d ∈ dirs) by (apply Hds; left).
    assert (Hrest : ∀ d', d' ∈ ds → d' ∈ dirs) by (intros; apply Hds; by right).
    cbn [carve_loop]. destruct (_ && _); [|by apply IH].
    destruct (arr_get (st_grid st) (index w (x + DX d) (y + DY d)))
      as [v|]; cbn [mbind option_bind]; [|done].
    destruct (v =? 0); [|by apply IH].
    destruct (arr_get (st_grid st) (index w x y)) as [cur|] eqn:Hcur;
      cbn [mbind option_bind]; [|done].
    destruct (arr_set (st_grid st) _ _) as [g1|] eqn:Hg1;
      cbn [mbind option_bind]; [|done].
    destruct (arr_get g1 _) as [nbv|] eqn:Hnbv;
      cbn [mbind option_bind]; [|done].
    destruct (arr_set g1 _ _) as [g2|] eqn:Hg2;
      cbn [mbind option_bind]; [|done].
    destruct (recurse _ _ _) as [st1|] eqn:Hst1;
      cbn [mbind option_bind]; [|done].
    apply IH; [done|].
    eapply Hrec; [|exact Hst1]. cbn [st_grid].
    eapply arr_set_Forall; [|..|exact Hg2].
    + eapply arr_set_Forall; [exact HP|..|exact Hg1].
      apply Hlor; [|done]. by eapply arr_get_Forall.
    + apply Hlor; [|by apply OPPOSITE_dir].
      eapply arr_get_Forall; [|exact Hnbv].
      eapply arr_set_Forall; [exact HP|..|exact Hg1].
      apply Hlor; [|done]. by eapply arr_get_Forall.
Qed.

Lemma create_passage_from_values (P : Z → Prop) fuel :
  (∀ v d, P v → d ∈ dirs → P (Z.lor v d)) →
  ∀ x y st st',
    Forall P (st_grid st) →
    create_passage_from w h fuel x y st = Some st' → Forall P (st_grid st').
Proof.
  intros Hlor. induction fuel as [|fuel IH]; intros x y st st' HP; [done|].
  cbn [create_passage_from].
  destruct (shuffle_ok (st_rng st)) as (ds & -> & Hperm).
  cbn [mbind option_bind]. apply carve_loop_values; try done.
  intros d Hd. by rewrite <- Hperm.
Qed.

(** X3. Every cell state of the carved grid is a set of direction codes:
    it has no bit outside N | S | E | W. *)
Theorem carving_sets_direction_bits_only seed :
  ∃ g, BackTracker w h seed
       = Some {| _width := w; _height := h; _seed := seed; _grid := g |} ∧
       Forall (λ v, Z.land v direction_mask = v) g.
Proof.
  destruct (BackTracker_result seed) as (st & Hrun & Hbt & _).
  exists (st_grid st). split; [done|].
  unfold carve, Maze_new in Hrun. cbn [_grid] in Hrun.
  eapply create_passage_from_values; [|..|exact Hrun].
  - intros v d Hv Hd. by apply mask_closed.
  - cbn [st_grid]. apply Forall_replicate. apply Z.land_0_l.
Qed.

(** X4. In a carved grid of more than one cell no cell is closed: every
    cell has a passage bit whose neighbour has the opposite bit. *)
Theorem carving_opens_every_cell seed :
  2 ≤ w * h →
  ∃ g, BackTracker w h seed
       = Some {| _width := w; _height := h; _seed := seed; _grid := g |} ∧
       ∀ c, in_bounds w h c = true →
            ∃ d, d ∈ dirs ∧ pair_open w h g c d = true.
Proof.
  intros Hsize.
  destruct (BackTracker_result seed) as (st & Hrun & Hbt & Hinv & Hall & Hlen).
  exists (st_grid st). split; [done|]. intros c Hc.
  assert (Hnz : cell w (st_grid st) c ≠ 0).
  { destruct (cv_mark _ _ _ _ _ Hinv c (Hall c Hc)) as [_ [H|H]]; [done|].
    rewrite H in Hlen. simpl in Hlen. lia. }
  assert (Hmask : Z.land (cell w (st_grid st) c) direction_mask
                  = cell w (st_grid st) c).
  { unfold carve, Maze_new in Hrun. cbn [_grid] in Hrun.
    pose proof (cell_get _ (cv_length _ _ _ _ _ Hinv) c Hc) as Hg.
    eapply (arr_get_Forall (λ v, Z.land v direction_mask = v)); [|exact Hg].
    eapply create_passage_from_values; [|..|exact Hrun].
    - intros v d Hv Hd. by apply mask_closed.
    - cbn [st_grid]. apply Forall_replicate. apply Z.land_0_l. }
  assert (Hsome : ∃ d, d ∈ dirs ∧ open (cell w (st_grid st) c) d = true).
  { destruct (open (cell w (st_grid st) c) dN) eqn:EN; [by exists dN; auto|].
    destruct (open (cell w (st_grid st) c) dS) eqn:ES; [by exists dS; auto|].
    destruct (open (cell w (st_grid st) c) dE) eqn:EE; [by exists dE; auto|].
    destruct (open (cell w (st_grid st) c) dW) eqn:EW; [by exists dW; auto|].
    exfalso. apply Hnz. rewrite <- Hmask. unfold direction_mask.
    unfold open in *.
    repeat match goal with
           | H : negb _ = false |- _ =>
               apply negb_false_iff, Z.eqb_eq in H
           end.
    rewrite !Z.land_lor_distr_r, EN, ES, EE, EW. done. }
  destruct Hsome as (d & Hd & Ho). exists d. split; [done|].
  by apply (cv_pair _ _ _ _ _ Hinv).
Qed.


(** *** Carving from any cell *)

Lemma grid_closure_from (P : Z * Z → Prop) r :
  inb r → P r →
  (∀ c d, P c → d ∈ dirs → inb (neighbor c d) → P (neighbor c d)) →
  ∀ c, inb c → P c.
Proof.
  intros Hr HPr Hstep. apply grid_closure; [|done].
  assert (Hwest : ∀ n y, 0 ≤ y < h → Z.of_nat n < w →
            P (Z.of_nat n, y) → P (0, y)).
  { induction n as [|n IHn]; intros y Hy Hn HP; [done|].
    apply IHn; [done|lia|].
    replace (Z.of_nat n, y) with (neighbor (Z.of_nat (S n), y) dW).
    - apply Hstep; [done|auto|].
      apply in_bounds_iff. unfold neighbor. simpl. rewrite DX_W, DY_W. lia.
    - unfold neighbor. simpl. rewrite DX_W, DY_W. f_equal; lia. }
  assert (Hnorth : ∀ n, Z.of_nat n < h → P (0, Z.of_nat n) → P (0, 0)).
  { induction n as [|n IHn]; intros Hn HP; [done|].
    apply IHn; [lia|].
    replace (0, Z.of_nat n) with (neighbor (0, Z.of_nat (S n)) dN).
    - apply Hstep; [done|auto|].
      apply in_bounds_iff. unfold neighbor. simpl. rewrite DX_N, DY_N. lia.
    - unfold neighbor. simpl. rewrite DX_N, DY_N. f_equal; lia. }
  destruct r as [x y]. apply in_bounds_iff in Hr. simpl in Hr.
  apply (Hnorth (Z.to_nat y)); [lia|]. rewrite Z2Nat.id by lia.
  apply (Hwest (Z.to_nat x)); [lia|lia|]. by rewrite Z2Nat.id by lia.
Qed.

Lemma carved_start_at r :
  inb r → carved w h r (replicate (Z.to_nat (w * h)) 0) [r].
Proof.
  intros Hr.
  assert (Hno : ∀ a b, ¬ passage w h (replicate (Z.to_nat (w * h)) 0) a b).
  { intros a b Hp. apply passage_iff in Hp as (d & _ & _ & Hp).
    apply pair_open_iff in Hp as (_ & _ & Hp & _).
    by rewrite cell_replicate, open_zero in Hp. }
  split.
  - apply length_replicate.
  - intros c d _ _. by rewrite cell_replicate, open_zero.
  - intros c _. by rewrite cell_replicate.
  - intros c Hc. apply list_elem_of_singleton in Hc as ->. split; [done|].
    by right.
  - apply NoDup_singleton.
  - simpl. rewrite (sum_list_fmap_same 0).
    + lia.
    + apply Forall_forall. intros v Hv.
      apply elem_of_replicate in Hv as [-> _]. apply passages_of_zero.
  - intros c Hc. apply list_elem_of_singleton in Hc as ->. done.
  - by apply acyclic_empty.
Qed.

(** X5. [create_passage_from] builds a spanning tree from any start cell:
    called on a grid of zero cells at any coordinates inside the grid, in
    any state of the generator, it returns and leaves a passage graph that
    is connected, has width*height - 1 edges and has no cycle. *)
Theorem carving_from_any_cell x y rs fuel :
  in_bounds w h (x, y) = true →
  (Z.to_nat (w * h) ≤ fuel)%nat →
  ∃ st, create_passage_from w h fuel x y
          {| st_grid := replicate (Z.to_nat (w * h)) 0; st_rng := rs;
             st_calls := [] |} = Some st ∧
        spanning_tree w h (st_grid st).
Proof.
  intros Hxy Hfuel.
  destruct (create_passage_from_spec (x, y) fuel x y
              {| st_grid := replicate (Z.to_nat (w * h)) 0; st_rng := rs;
                 st_calls := [] |})
    as (st & Hrun & new & Hc & Hinv & Hfin & _).
  { by apply carved_start_at. }
  { simpl. lia. }
  cbn [st_calls] in Hc. rewrite app_nil_r in Hc.
  exists st. split; [done|].
  assert (Hall : ∀ c, inb c → c ∈ st_calls st).
  { apply (grid_closure_from _ (x, y)); [done| |].
    - rewrite Hc. apply elem_of_app. right. by left.
    - intros c d Hin Hd Hb. rewrite Hc in Hin. by apply (Hfin c). }
  assert (Hlen : length (st_calls st) = Z.to_nat (w * h)).
  { apply Nat.le_antisymm; [by eapply calls_bounded|].
    rewrite <- length_cells. apply submseteq_length.
    apply NoDup_submseteq; [apply NoDup_cells|].
    intros c Hin. by apply Hall, in_cells. }
  split; [|split].
  - intros a b Ha Hb. trans (x, y).
    + apply rtc_sym; [apply passage_sym|].
      apply (cv_reach _ _ _ _ _ Hinv). by apply Hall.
    + apply (cv_reach _ _ _ _ _ Hinv). by apply Hall.
  - rewrite (length_edges _ _ _ Hinv).
    pose proof (cv_count _ _ _ _ _ Hinv). lia.
  - apply (cv_acyclic _ _ _ _ _ Hinv).
Qed.

(** *** Carving a grid that is carved already *)

Lemma carve_loop_skips recurse x y ds st :
  length (st_grid st) = Z.to_nat (w * h) →
  (∀ c, inb c → cell w (st_grid st) c ≠ 0) →
  carve_loop w h recurse x y ds st = Some st.
Proof.
  intros Hlen Hnz. induction ds as [|d ds IH]; [done|].
  cbn [carve_loop]. rewrite bounds_check.
  destruct (in_bounds w h (neighbor (x, y) d)) eqn:Hb; [|done].
  change (x + DX d) with (neighbor (x, y) d).1.
  change (y + DY d) with (neighbor (x, y) d).2.
  rewrite (cell_get _ Hlen _ Hb). cbn [mbind option_bind].
  by destruct (Z.eqb_spec (cell w (st_grid st) (neighbor (x, y) d)) 0)
    as [Hz|_]; [destruct (Hnz _ Hb Hz)|].
Qed.

(** X6. A carved maze of more than one cell is left as it is by the
    carver: a further call of [create_passage_from], at any coordinates,
    shuffles once and returns without changing any cell. *)
Theorem carving_again_changes_nothing seed :
  2 ≤ w * h →
  ∃ st, carve (S (Z.to_nat (w * h))) w h seed = Some st ∧
        ∀ x y fuel,
          create_passage_from w h (S fuel) x y st
          = Some {| st_grid := st_grid st;
                    st_rng := ((st_rng st).1, ((st_rng st).2 + 4)%nat);
                    st_calls := (x, y) :: st_calls st |}.
Proof.
  intros Hsize.
  destruct (BackTracker_result seed) as (st & Hrun & _ & Hinv & Hall & Hlen).
  exists st. split; [done|]. intros x y fuel.
  cbn [create_passage_from].
  destruct (shuffle_ok (st_rng st)) as (ds & -> & _).
  cbn [mbind option_bind]. apply carve_loop_skips; cbn [st_grid].
  - apply (cv_length _ _ _ _ _ Hinv).
  - intros c Hc.
    destruct (cv_mark _ _ _ _ _ Hinv c (Hall c Hc)) as [_ [H|H]]; [done|].
    rewrite H in Hlen. simpl in Hlen. lia.
Qed.

(** *** The size of the diagram *)

Lemma length_append (a b : string) :
  String.length (a +:+ b) = (String.length a + String.length b)%nat.
Proof.
  induction a as [|x a IH]; [done|]. rewrite append_cons. simpl. by rewrite IH.
Qed.

Lemma occurs_append c (a b : string) :
  occurs c (a +:+ b) = occurs c a || occurs c b.
Proof.
  induction a as [|x a IH]; [done|]. rewrite append_cons. simpl.
  by rewrite IH, orb_assoc.
Qed.

Lemma occurs_join c (l : list string) :
  Forall (λ s, occurs c s = false) l → occurs c (join l) = false.
Proof.
  induction 1 as [|s l Hs _ IH]; [done|]. simpl.
  by rewrite occurs_append, Hs, IH.
Qed.

Lemma pieces_line delim (s rest : string) :
  occurs delim s = false →
  pieces delim (s +:+ String delim rest) = s :: pieces delim rest.
Proof.
  induction s as [|x s IH]; intros Hs.
  - rewrite append_nil_l. simpl. by rewrite Ascii.eqb_refl.
  - simpl in Hs. apply orb_false_elim in Hs as [Hx Hs].
    rewrite append_cons. cbn [pieces]. by rewrite Hx, (IH Hs).
Qed.

Lemma pieces_lines delim (ls : list string) (rest : string) :
  Forall (λ s, occurs delim s = false) ls →
  pieces delim (join ((λ l, l +:+ String delim "") <$> ls) +:+ rest)
  = ls ++ pieces delim rest.
Proof.
  induction 1 as [|s ls Hs _ IH]; [done|]. cbn [fmap list_fmap join foldr].
  rewrite !append_assoc, append_cons, append_nil_l.
  rewrite (pieces_line _ _ _ Hs). simpl. f_equal. exact IH.
Qed.

Lemma show_uint_no_newline d :
  occurs newline (NilEmpty.string_of_uint d) = false.
Proof. induction d; simpl; done. Qed.

Lemma show_int_no_newline z : occurs newline (show_int z) = false.
Proof.
  unfold show_int, NilZero.string_of_int, NilZero.string_of_uint.
  destruct (Z.to_int z) as [d|d]; destruct d; simpl;
    by rewrite ?show_uint_no_newline.
Qed.

Lemma length_join_same (n : nat) (l : list string) :
  Forall (λ s, String.length s = n) l →
  String.length (join l) = (length l * n)%nat.
Proof.
  induction 1 as [|s l Hs _ IH]; [done|]. simpl.
  by rewrite length_append, Hs, IH.
Qed.

Lemma glyphs_length g i j :
  String.length (floor_glyph w g i j +:+ east_glyph w h g i j) = 2%nat.
Proof.
  unfold floor_glyph, east_glyph.
  by destruct (open (cell w g (i, j)) dS), (open (cell w g (i, j)) dE),
    (in_bounds w h (i + 1, j) && open (cell w g (i + 1, j)) dS).
Qed.

Lemma glyphs_no_newline g i j :
  occurs newline (floor_glyph w g i j +:+ east_glyph w h g i j) = false.
Proof.
  unfold floor_glyph, east_glyph.
  by destruct (open (cell w g (i, j)) dS), (open (cell w g (i, j)) dE),
    (in_bounds w h (i + 1, j) && open (cell w g (i + 1, j)) dS).
Qed.

(** The diagram, line by line. *)
Lemma diagram_lines m :
  _width m = w → _height m = h →
  ∃ top rows meta,
    diagram m = join ((λ l, l +:+ endl) <$> (top :: rows ++ [meta])) ∧
    Forall (λ s, occurs newline s = false) (top :: rows ++ [meta]) ∧
    String.length top = Z.to_nat (2 * w) ∧
    length rows = Z.to_nat h ∧
    Forall (λ r, String.length r = Z.to_nat (2 * w + 1)) rows.
Proof.
  intros Ew Eh.
  set (glyphs j := (λ i, floor_glyph w (_grid m) i j +:+
                         east_glyph w h (_grid m) i j) <$> seqZ 0 w).
  exists (" " +:+ join (replicate (Z.to_nat (2 * w - 1)) "_")),
         ((λ j, "|" +:+ join (glyphs j)) <$> seqZ 0 h),
         (" width: " +:+ show_int w +:+ ", height: " +:+ show_int h +:+
          ", seed: " +:+ show_int (_seed m)).
  assert (Hglen : ∀ j, String.length (join (glyphs j)) = Z.to_nat (2 * w)).
  { intros j. rewrite (length_join_same 2).
    - unfold glyphs. rewrite length_fmap, length_seqZ. lia.
    - unfold glyphs. apply Forall_fmap, Forall_forall. intros i _.
      apply glyphs_length. }
  assert (Hgnl : ∀ j, occurs newline (join (glyphs j)) = false).
  { intros j. apply occurs_join. unfold glyphs.
    apply Forall_fmap, Forall_forall. intros i _. apply glyphs_no_newline. }
  split; [|split; [|split; [|split]]].
  - unfold diagram, top_text, row_text, metadata_text. rewrite Ew, Eh.
    cbn [fmap list_fmap join foldr]. rewrite fmap_app, <- list_fmap_compose.
    assert (Hj : ∀ (l1 l2 : list string), join (l1 ++ l2) = join l1 +:+ join l2).
    { induction l1 as [|a l1 IH]; intros l2; [done|]. simpl.
      by rewrite IH, append_assoc. }
    rewrite Hj. cbn [fmap list_fmap join foldr].
    rewrite !append_assoc, append_nil_r.
    assert (E : (λ j, "|" +:+ join
                        ((λ i, floor_glyph w (_grid m) i j +:+
                               east_glyph w h (_grid m) i j) <$> seqZ 0 w)
                      +:+ endl) <$> seqZ 0 h
                = (λ l, l +:+ endl) ∘ (λ j, "|" +:+ join (glyphs j))
                    <$> seqZ 0 h).
    { apply list_fmap_ext. intros i j _. simpl. by rewrite !append_assoc. }
    by rewrite E.
  - constructor; [|apply Forall_app; split].
    + rewrite occurs_append. simpl. apply occurs_join.
      by apply Forall_replicate.
    + apply Forall_fmap, Forall_forall. intros j _. simpl.
      by rewrite occurs_append, Hgnl.
    + constructor; [|done].
      rewrite !occurs_append, !show_int_no_newline. done.
  - rewrite length_append, (length_join_same 1).
    + rewrite length_replicate. simpl. lia.
    + by apply Forall_replicate.
  - by rewrite length_fmap, length_seqZ.
  - apply Forall_fmap, Forall_forall. intros j _. simpl.
    rewrite length_append, Hglen. simpl. lia.
Qed.

(** X7. The diagram drawn for a carved maze has exactly height + 2
    lines: a top line of 2 * width characters, one line of
    2 * width + 1 characters per row, and the metadata line. *)
Theorem draw_size seed :
  ∃ m es top rows meta,
    BackTracker w h seed = Some m ∧ draw m = Some es ∧
    pieces newline (rendered es) = top :: rows ++ [meta] ∧
    String.length top = Z.to_nat (2 * w) ∧
    length rows = Z.to_nat h ∧
    Forall (λ r, String.length r = Z.to_nat (2 * w + 1)) rows.
Proof.
  destruct (BackTracker_drawn seed) as (st & es & Hbt & _ & Hes & Ht & _).
  destruct (diagram_lines {| _width := w; _height := h; _seed := seed;
                             _grid := st_grid st |} eq_refl eq_refl)
    as (top & rows & meta & Hd & Hnl & Htop & Hrows & Hlen).
  eexists _, es, top, rows, meta. split; [exact Hbt|]. split; [exact Hes|].
  split; [|done].
  rewrite Ht, Hd, <- (append_nil_r (join _)).
  pose proof (pieces_lines newline _ "" Hnl) as Hp.
  change (String newline "") with endl in Hp. rewrite Hp.
  simpl. by rewrite app_nil_r.
Qed.

(** *** Mazes of one row *)

Lemma join_app (l1 l2 : list string) : join (l1 ++ l2) = join l1 +:+ join l2.
Proof.
  induction l1 as [|a l1 IH]; [done|]. simpl. by rewrite IH, append_assoc.
Qed.

Lemma const_fmap_replicate {A} (l : list A) (c : string) :
  (λ _, c) <$> l = replicate (length l) c.
Proof. induction l as [|a l IH]; [done|]. simpl. by rewrite <- IH. Qed.

Lemma rtc_crosses {A} (R : A → A → Prop) (P : A → Prop)
    `{∀ x, Decision (P x)} a b :
  rtc R a b → P a → ¬ P b → ∃ x y, R x y ∧ P x ∧ ¬ P y.
Proof.
  induction 1 as [|a b c Hab _ IH]; intros Ha Hb; [done|].
  destruct (decide (P b)) as [Hpb|Hpb]; [by apply IH|by exists a, b].
Qed.

Lemma one_row_east r g calls i :
  h = 1 → carved w h r g calls → (∀ c, inb c → c ∈ calls) →
  0 ≤ i < w →
  (open (cell w g (i, 0)) dE = true ↔ i < w - 1).
Proof.
  intros Eh Hinv Hall Hi.
  assert (Hc : inb (i, 0)) by (apply in_bounds_iff; simpl; lia).
  split.
  - intros Ho. apply (cv_pair _ _ _ _ _ Hinv _ _ Hc dirs_E) in Ho.
    apply pair_open_iff in Ho as (_ & Hn & _).
    apply in_bounds_iff in Hn. unfold neighbor in Hn. simpl in Hn.
    rewrite DX_E in Hn. lia.
  - intros Hlt.
    assert (Hc' : inb (i + 1, 0)) by (apply in_bounds_iff; simpl; lia).
    assert (Hpath : rtc (passage w h g) (i, 0) (i + 1, 0)).
    { trans r.
      - apply rtc_sym; [apply passage_sym|].
        apply (cv_reach _ _ _ _ _ Hinv). by apply Hall.
      - apply (cv_reach _ _ _ _ _ Hinv). by apply Hall. }
    destruct (rtc_crosses _ (λ c : Z * Z, c.1 ≤ i) _ _ Hpath)
      as ([x y] & b & Hp & Hx & Hy); [simpl; lia|simpl; lia|].
    apply passage_iff in Hp as (d & Hd & -> & Hp).
    apply pair_open_iff in Hp as (Hix & _ & Ho & _).
    apply in_bounds_iff in Hix. unfold neighbor in Hy. simpl in *.
    dir_cases Hd; autorewrite with tables in Hy; try lia.
    by replace i with x by lia; replace 0 with y by lia.
Qed.

(** X8. A maze of one row is a corridor, whatever the seed: every cell but
    the last has its East bit and every cell but the first its West bit,
    no cell has a North or South bit, and the row is drawn as a bar, two
    underscores per cell but the last, an underscore and a bar. *)
Theorem one_row_is_corridor seed :
  h = 1 →
  ∃ m es,
    BackTracker w h seed = Some m ∧
    (∀ i, 0 ≤ i < w →
       (open (cell w (_grid m) (i, 0)) dE = true ↔ i < w - 1) ∧
       (open (cell w (_grid m) (i, 0)) dW = true ↔ 0 < i) ∧
       open (cell w (_grid m) (i, 0)) dN = false ∧
       open (cell w (_grid m) (i, 0)) dS = false) ∧
    draw m = Some es ∧
    rendered es
    = top_text m +:+
      ("|" +:+ join (replicate (Z.to_nat (w - 1)) "__") +:+ "_|" +:+ endl) +:+
      metadata_text m.
Proof.
  intros Eh.
  destruct (BackTracker_result seed) as (st & _ & Hbt & Hinv & Hall & _).
  destruct (BackTracker_drawn seed) as (st' & es & Hbt' & _ & Hes & Ht & _).
  rewrite Hbt in Hbt'. injection Hbt' as Eg. rewrite <- Eg in *. clear st' Eg.
  set (g := st_grid st) in *.
  assert (Hout : ∀ i d, 0 ≤ i < w → d ∈ dirs →
            in_bounds w h (neighbor (i, 0) d) = false →
            open (cell w g (i, 0)) d = false).
  { intros i d Hi Hd Hn.
    destruct (open (cell w g (i, 0)) d) eqn:E; [|done].
    apply (cv_pair _ _ _ _ _ Hinv) in E; [|apply in_bounds_iff; simpl; lia|done].
    apply pair_open_iff in E. destruct E as (_ & E & _). congruence. }
  assert (Hbits : ∀ i, 0 ≤ i < w →
            (open (cell w g (i, 0)) dE = true ↔ i < w - 1) ∧
            (open (cell w g (i, 0)) dW = true ↔ 0 < i) ∧
            open (cell w g (i, 0)) dN = false ∧
            open (cell w g (i, 0)) dS = false).
  { intros i Hi. split; [by eapply one_row_east|]. split; [|split].
    - assert (Hc : inb (i, 0)) by (apply in_bounds_iff; simpl; lia).
      split.
      + intros Ho. apply (cv_pair _ _ _ _ _ Hinv _ _ Hc dirs_W) in Ho.
        apply pair_open_iff in Ho as (_ & Hn & _).
        apply in_bounds_iff in Hn. unfold neighbor in Hn. simpl in Hn.
        rewrite DX_W in Hn. lia.
      + intros Hpos.
        assert (HE : open (cell w g (i - 1, 0)) dE = true)
          by (eapply one_row_east; try done; lia).
        apply (cv_pair _ _ _ _ _ Hinv) in HE;
          [|apply in_bounds_iff; simpl; lia|auto].
        apply pair_open_iff in HE as (_ & _ & _ & HE).
        unfold neighbor in HE. simpl in HE.
        rewrite DX_E, DY_E, OPPOSITE_E in HE.
        by replace (i - 1 + 1) with i in HE by lia.
    - apply Hout; [done|auto|]. apply not_true_is_false.
      rewrite in_bounds_iff. unfold neighbor. simpl. rewrite DY_N. lia.
    - apply Hout; [done|auto|]. apply not_true_is_false.
      rewrite in_bounds_iff. unfold neighbor. simpl. rewrite DY_S. lia. }
  eexists _, es. split; [exact Hbt|]. split; [exact Hbits|].
  split; [exact Hes|]. rewrite Ht. unfold diagram. cbn [_height _width _grid].
  rewrite Eh. change (seqZ 0 1) with [0].
  cbn [fmap list_fmap join foldr]. rewrite append_nil_r.
  f_equal. f_equal. unfold row_text. cbn [_height _width _grid].
  f_equal. rewrite <- (append_assoc _ "_|" endl). f_equal.
  set (n := Z.to_nat (w - 1)).
  replace (seqZ 0 w) with (seqZ 0 (Z.of_nat (S n))) by (f_equal; lia).
  rewrite seqZ_S, fmap_app, join_app. cbn [fmap list_fmap join foldr].
  rewrite append_nil_r.
  assert (Hlast : 0 + Z.of_nat n = w - 1) by lia. rewrite Hlast.
  f_equal.
  - f_equal. trans ((λ _ : Z, "__") <$> seqZ 0 (Z.of_nat n));
      [|by rewrite const_fmap_replicate, length_seqZ, Nat2Z.id].
    apply list_fmap_ext. intros k i Hk.
    apply list_elem_of_lookup_2, elem_of_seqZ in Hk.
    destruct (Hbits i ltac:(lia)) as (HE & _ & _ & HS).
    destruct (Hbits (i + 1) ltac:(lia)) as (_ & _ & _ & HS').
    unfold floor_glyph, east_glyph.
    rewrite HS, HS', (proj2 HE) by lia. by rewrite andb_false_r.
  - destruct (Hbits (w - 1) ltac:(lia)) as (HE & _ & _ & HS).
    unfold floor_glyph, east_glyph. rewrite HS.
    destruct (open (cell w g (w - 1, 0)) dE) eqn:E; [|done].
    destruct HE as [HE _]. specialize (HE eq_refl). lia.
Qed.

End Grid.

(** ** Cells without a neighbour to carve into *)

Lemma carve_loop_blocked w h recurse x y ds st :
  (∀ d, d ∈ ds → in_bounds w h (neighbor (x, y) d) = false) →
  carve_loop w h recurse x y ds st = Some st.
Proof.
  induction ds as [|d ds IH]; intros Hout; [done|].
  cbn [carve_loop]. rewrite bounds_check, Hout by left.
  apply IH. intros d' Hd'. apply Hout. by right.
Qed.

Lemma create_passage_from_blocked w h fuel x y st :
  (∀ d, d ∈ dirs → in_bounds w h (neighbor (x, y) d) = false) →
  create_passage_from w h (S fuel) x y st
  = Some {| st_grid := st_grid st;
            st_rng := ((st_rng st).1, ((st_rng st).2 + 4)%nat);
            st_calls := (x, y) :: st_calls st |}.
Proof.
  intros Hout. cbn [create_passage_from].
  destruct (shuffle_ok (st_rng st)) as (ds & -> & Hperm).
  cbn [mbind option_bind]. apply carve_loop_blocked.
  intros d Hd. apply Hout. by rewrite <- Hperm.
Qed.

Lemma single_cell_blocked d :
  d ∈ dirs → in_bounds 1 1 (neighbor (0, 0) d) = false.
Proof.
  intros Hd. apply not_true_is_false. rewrite in_bounds_iff.
  unfold neighbor, DX, DY. simpl.
  dir_cases Hd;
    repeat match goal with
           | |- context [?a =? ?b] => destruct (Z.eqb_spec a b)
           end; lia.
Qed.

(** C7, as the code has it.  For width 1 and height 1 and any seed,
    carving enters cell (0,0) only and leaves its state 0, and the text
    drawn is the three lines " _", "|_|" and
    " width: 1, height: 1, seed: <S>": the metadata line starts with a
    space. *)
Theorem single_cell_maze seed fuel :
  carve (S fuel) 1 1 seed
  = Some {| st_grid := [0]; st_rng := (seed, 4%nat);
            st_calls := [(0, 0)] |} ∧
  main 1 1 seed
  = Some (" _" +:+ endl +:+ "|_|" +:+ endl +:+
          " width: 1, height: 1, seed: " +:+ show_int seed +:+ endl).
Proof.
  assert (Hrun : ∀ f, carve (S f) 1 1 seed
            = Some {| st_grid := [0]; st_rng := (seed, 4%nat);
                      st_calls := [(0, 0)] |}).
  { intros f. unfold carve, Maze_new.
    rewrite create_passage_from_blocked by apply single_cell_blocked.
    done. }
  split; [apply Hrun|].
  unfold main, BackTracker. rewrite Hrun. reflexivity.
Qed.

(** ** The shuffle, iteration by iteration *)

Lemma shuffle_loop_split n k : ∀ i l g,
  shuffle_loop (n + k) i l g
  = '(l', g') ← shuffle_loop n i l g;
    shuffle_loop k (i + Z.of_nat n) l' g'.
Proof.
  induction n as [|n IH]; intros i l g.
  - simpl. by rewrite Z.add_0_r.
  - cbn [shuffle_loop Nat.add]. destruct (rand g) as [v g'].
    destruct (arr_get l i) as [temp|]; [|done]. cbn [mbind option_bind].
    destruct (arr_get l _) as [at_r|]; [|done]. cbn [mbind option_bind].
    destruct (arr_set l i at_r) as [d1|]; [|done]. cbn [mbind option_bind].
    destruct (arr_set d1 _ temp) as [d2|]; [|done]. cbn [mbind option_bind].
    rewrite IH. by replace (i + 1 + Z.of_nat n) with (i + Z.of_nat (S n)) by lia.
Qed.

(** The iteration of index 3 draws a number and swaps the last element
    with itself. *)
Lemma shuffle_loop_last a b c d g :
  shuffle_loop 1 3 [a; b; c; d] g = Some ([a; b; c; d], (g.1, S g.2)).
Proof.
  cbn [shuffle_loop]. destruct (rand_draw g) as (v & _ & ->).
  replace (4 - 3) with 1 by lia. rewrite Z.rem_1_r.
  repeat (array_step; cbn [mbind option_bind]). done.
Qed.

Lemma length_swap_at i r l : length (swap_at i r l) = length l.
Proof.
  unfold swap_at. destruct (l !! Z.to_nat i); [|done].
  destruct (l !! Z.to_nat r); [|done]. by rewrite !length_insert.
Qed.

Lemma swap_at_same i l : swap_at i i l = l.
Proof.
  unfold swap_at. destruct (l !! Z.to_nat i) as [a|] eqn:E; [|done].
  by rewrite !(list_insert_id l _ _ E).
Qed.

(** [swap_at] position by position: the elements at [i] and [r] change
    places and every other one stays. *)
Lemma swap_at_lookup i r l k :
  0 ≤ i < Z.of_nat (length l) → 0 ≤ r < Z.of_nat (length l) →
  swap_at i r l !! k
  = if decide (k = Z.to_nat r) then l !! Z.to_nat i
    else if decide (k = Z.to_nat i) then l !! Z.to_nat r
    else l !! k.
Proof.
  intros Hi Hr. unfold swap_at.
  destruct (lookup_lt_is_Some_2 l (Z.to_nat i) ltac:(lia)) as [a Ha].
  destruct (lookup_lt_is_Some_2 l (Z.to_nat r) ltac:(lia)) as [b Hb].
  rewrite Ha, Hb. destruct (decide (k = Z.to_nat r)) as [-> | Hkr].
  - rewrite list_lookup_insert_eq; [done|]. rewrite length_insert. lia.
  - rewrite list_lookup_insert_ne by done.
    destruct (decide (k = Z.to_nat i)) as [-> | Hki].
    + rewrite list_lookup_insert_eq; [done|lia].
    + by rewrite list_lookup_insert_ne.
Qed.

(** The index drawn by the iteration [i] lies between [i] and 3. *)
Lemma shuffle_pick_range g i :
  (i ≤ 3)%nat → Z.of_nat i ≤ shuffle_pick g i ≤ 3.
Proof.
  intros Hi. unfold shuffle_pick.
  pose proof (Z.rem_bound_pos (Z.of_N (rand_stream g.1 (i + g.2)))
                (4 - Z.of_nat i) ltac:(lia) ltac:(lia)).
  lia.
Qed.

(** One iteration of the shuffle loop of a run that started in the
    generator state [g]: it draws once and exchanges the elements at the
    positions [i] and [shuffle_pick g i]. *)
Lemma shuffle_loop_step n i l g :
  length l = 4%nat → (i ≤ 3)%nat →
  shuffle_loop (S n) (Z.of_nat i) l (g.1, (i + g.2)%nat)
  = shuffle_loop n (Z.of_nat (S i))
      (swap_at (Z.of_nat i) (shuffle_pick g i) l) (g.1, (S i + g.2)%nat).
Proof.
  intros Hlen Hi. pose proof (shuffle_pick_range g i Hi) as Hr.
  cbn [shuffle_loop]. unfold rand. cbn [fst snd].
  fold (shuffle_pick g i). set (r := shuffle_pick g i) in *. clearbody r.
  destruct (lookup_lt_is_Some_2 l (Z.to_nat (Z.of_nat i)) ltac:(lia))
    as [a Ha].
  destruct (lookup_lt_is_Some_2 l (Z.to_nat r) ltac:(lia)) as [b Hb].
  unfold swap_at, arr_get, arr_set. rewrite Ha, Hb.
  destruct (Z.ltb_spec (Z.of_nat i) 0); [lia|].
  destruct (Z.ltb_spec r 0); [lia|]. cbn [mbind option_bind].
  destruct (Z.leb_spec 0 (Z.of_nat i)); [|lia].
  destruct (Z.ltb_spec (Z.of_nat i) (Z.of_nat (length l))); [|lia].
  cbn [andb mbind option_bind]. rewrite length_insert.
  destruct (Z.leb_spec 0 r); [|lia].
  destruct (Z.ltb_spec r (Z.of_nat (length l))); [|lia].
  cbn [andb mbind option_bind]. f_equal. lia.
Qed.

(** C2, as the code has it.  Every shuffle starts from the list
    North, South, East, West and runs, for the index i from 0 to 3, the
    step: draw r = i + rand() % (4 - i), which lies between i and 3, and
    exchange the elements at the positions i and r.  It consumes exactly
    four random draws, in that order; the fourth one always gives r = 3
    and leaves the list as the iterations 0 to 2 made it, which is the
    order the three-iteration scheme of the specification gives, an order
    of the four directions.  Every invocation of [create_passage_from]
    begins with this shuffle and then tries the directions in the order
    it made. *)
Theorem shuffle_four_draws g :
  let r := shuffle_pick g in
  let l1 := swap_at 0 (r 0%nat) [dN; dS; dE; dW] in
  let l2 := swap_at 1 (r 1%nat) l1 in
  let l3 := swap_at 2 (r 2%nat) l2 in
  let l4 := swap_at 3 (r 3%nat) l3 in
  shuffle g = Some (l4, (g.1, (g.2 + 4)%nat)) ∧
  (0 ≤ r 0%nat ≤ 3 ∧ 1 ≤ r 1%nat ≤ 3 ∧ 2 ≤ r 2%nat ≤ 3 ∧ r 3%nat = 3) ∧
  l4 = l3 ∧
  shuffle_as_specified g = Some (l3, (g.1, (g.2 + 3)%nat)) ∧
  l4 ≡ₚ dirs ∧
  ∀ w h fuel x y grid calls,
    create_passage_from w h (S fuel) x y
      {| st_grid := grid; st_rng := g; st_calls := calls |}
    = carve_loop w h (create_passage_from w h fuel) x y l4
        {| st_grid := grid; st_rng := (g.1, (g.2 + 4)%nat);
           st_calls := (x, y) :: calls |}.
Proof.
  intros r l1 l2 l3 l4.
  assert (H1 : length l1 = 4%nat) by (unfold l1; by rewrite length_swap_at).
  assert (H2 : length l2 = 4%nat) by (unfold l2; by rewrite length_swap_at).
  assert (H3 : length l3 = 4%nat) by (unfold l3; by rewrite length_swap_at).
  assert (Hr3 : r 3%nat = 3).
  { unfold r, shuffle_pick. change (4 - Z.of_nat 3) with 1.
    rewrite Z.rem_1_r. done. }
  assert (Hrun : shuffle g = Some (l4, (g.1, (g.2 + 4)%nat))).
  { unfold shuffle.
    etrans; [exact (shuffle_loop_step 3 0 [dN; dS; dE; dW] g eq_refl
                     ltac:(lia))|].
    etrans; [exact (shuffle_loop_step 2 1 _ g H1 ltac:(lia))|].
    etrans; [exact (shuffle_loop_step 1 2 _ g H2 ltac:(lia))|].
    etrans; [exact (shuffle_loop_step 0 3 _ g H3 ltac:(lia))|].
    cbn [shuffle_loop]. do 3 f_equal. lia. }
  split; [exact Hrun|]. split; [|split; [|split; [|split]]].
  - pose proof (shuffle_pick_range g 0 ltac:(lia)).
    pose proof (shuffle_pick_range g 1 ltac:(lia)).
    pose proof (shuffle_pick_range g 2 ltac:(lia)).
    rewrite Hr3. unfold r. lia.
  - unfold l4. rewrite Hr3. apply swap_at_same.
  - unfold shuffle_as_specified.
    etrans; [exact (shuffle_loop_step 2 0 [dN; dS; dE; dW] g eq_refl
                     ltac:(lia))|].
    etrans; [exact (shuffle_loop_step 1 1 _ g H1 ltac:(lia))|].
    etrans; [exact (shuffle_loop_step 0 2 _ g H2 ltac:(lia))|].
    cbn [shuffle_loop]. do 3 f_equal. lia.
  - destruct (shuffle_ok g) as (l & Hl & Hperm).
    rewrite Hrun in Hl. by injection Hl as <-.
  - intros w h fuel x y grid calls.
    cbn [create_passage_from st_rng st_grid st_calls]. by rewrite Hrun.
Qed.

(** ** The depth bound *)

Lemma carve_loop_mono w h (rec rec' : Z → Z → carve_state → option carve_state)
    x y ds :
  (∀ x' y' st r, rec x' y' st = Some r → rec' x' y' st = Some r) →
  ∀ st r, carve_loop w h rec x y ds st = Some r →
          carve_loop w h rec' x y ds st = Some r.
Proof.
  intros Hrec. induction ds as [|d ds IH]; intros st r; [by cbn|].
  cbn [carve_loop]. destruct (_ && _); [|apply IH].
  destruct (arr_get (st_grid st) (index w (x + DX d) (y + DY d)))
    as [v|]; cbn [mbind option_bind]; [|done].
  destruct (v =? 0); [|apply IH].
  destruct (arr_get (st_grid st) (index w x y)) as [cur|];
    cbn [mbind option_bind]; [|done].
  destruct (arr_set _ _ _) as [g1|]; cbn [mbind option_bind]; [|done].
  destruct (arr_get g1 _) as [nbv|]; cbn [mbind option_bind]; [|done].
  destruct (arr_set g1 _ _) as [g2|]; cbn [mbind option_bind]; [|done].
  destruct (rec _ _ _) as [st1|] eqn:E; cbn [mbind option_bind]; [|done].
  rewrite (Hrec _ _ _ _ E). cbn [mbind option_bind]. apply IH.
Qed.

(** A run that returns within some depth bound returns the same state
    within any larger one. *)
Lemma create_passage_from_fuel w h fuel : ∀ fuel' x y st r,
  (fuel ≤ fuel')%nat →
  create_passage_from w h fuel x y st = Some r →
  create_passage_from w h fuel' x y st = Some r.
Proof.
  induction fuel as [|fuel IH]; intros fuel' x y st r Hle; [done|].
  destruct fuel' as [|fuel']; [lia|]. cbn [create_passage_from].
  destruct (shuffle _) as [[ds g]|]; cbn [mbind option_bind]; [|done].
  apply carve_loop_mono. intros x' y' st' r'. apply IH. lia.
Qed.

Lemma carve_fuel fuel fuel' w h seed r :
  (fuel ≤ fuel')%nat →
  carve fuel w h seed = Some r → carve fuel' w h seed = Some r.
Proof. unfold carve, Maze_new. apply create_passage_from_fuel. Qed.

(** ** Grids without cells *)

Lemma no_cell_blocked w h c : w ≤ 0 ∨ h ≤ 0 → in_bounds w h c = false.
Proof.
  intros Hd. apply not_true_is_false. rewrite in_bounds_iff. lia.
Qed.

Lemma draw_no_cell m :
  _width m ≤ 0 ∨ _height m ≤ 0 →
  ∃ es, draw m = Some es ∧ lookups es = [].
Proof.
  intros Hd. unfold draw.
  destruct (for_range_spec (λ _, False) (λ _, "|" +:+ endl) (draw_row m)
              (Z.to_nat (_height m)) 0) as (rows & -> & _ & Hq).
  { intros k Hk. assert (Hw : Z.to_nat (_width m) = O) by lia.
    unfold draw_row. rewrite Hw. cbn [for_range mbind option_bind].
    eexists. split; [done|]. split; [done|]. constructor. }
  cbn [mbind option_bind]. eexists. split; [done|].
  cbn [lookups]. rewrite lookups_app, lookups_replicate.
  rewrite !lookups_app. cbn [lookups]. simpl. rewrite app_nil_r.
  destruct (lookups rows) as [|c ?]; [done|].
  by apply Forall_cons in Hq as [[] _].
Qed.

Lemma carve_no_cell fuel w h seed :
  w ≤ 0 ∨ h ≤ 0 →
  carve (S fuel) w h seed
  = Some {| st_grid := replicate (Z.to_nat (w * h)) 0;
            st_rng := (seed, 4%nat); st_calls := [(0, 0)] |}.
Proof.
  intros Hd. unfold carve, Maze_new.
  rewrite create_passage_from_blocked; [done|].
  intros d _. by apply no_cell_blocked.
Qed.

Lemma BackTracker_no_cell w h seed :
  w ≤ 0 ∨ h ≤ 0 →
  BackTracker w h seed
  = Some {| _width := w; _height := h; _seed := seed;
            _grid := replicate (Z.to_nat (w * h)) 0 |}.
Proof. intros Hd. unfold BackTracker. by rewrite carve_no_cell. Qed.



(** ** A maze that has not been carved *)



End MazeModel.

(** ** Determinism *)

Section Determinism.

Variables dN dS dE dW : Z.

(** Two generators, which give the same sequence for the seed [seed]. *)
Variables stream1 stream2 : Z → nat → N.
Variable seed : Z.
Hypothesis Hagree : ∀ k, stream1 seed k = stream2 seed k.

Lemma shuffle_loop_agree n : ∀ i l k,
  shuffle_loop stream1 n i l (seed, k) = shuffle_loop stream2 n i l (seed, k).
Proof.
  induction n as [|n IH]; intros i l k; [done|].
  cbn [shuffle_loop]. unfold rand. cbn [fst snd]. rewrite Hagree.
  destruct (arr_get l i) as [temp|]; cbn [mbind option_bind]; [|done].
  destruct (arr_get l _) as [at_r|]; cbn [mbind option_bind]; [|done].
  destruct (arr_set l i at_r) as [d1|]; cbn [mbind option_bind]; [|done].
  destruct (arr_set d1 _ temp) as [d2|]; cbn [mbind option_bind]; [|done].
  apply IH.
Qed.

Lemma shuffle_loop_seed (stream : Z → nat → N) n : ∀ i l g l' g',
  shuffle_loop stream n i l g = Some (l', g') → g'.1 = g.1.
Proof.
  induction n as [|n IH]; intros i l g l' g'.
  - by intros [= _ <-].
  - cbn [shuffle_loop]. unfold rand.
    destruct (arr_get l i) as [temp|]; cbn [mbind option_bind]; [|done].
    destruct (arr_get l _) as [at_r|]; cbn [mbind option_bind]; [|done].
    destruct (arr_set l i at_r) as [d1|]; cbn [mbind option_bind]; [|done].
    destruct (arr_set d1 _ temp) as [d2|]; cbn [mbind option_bind]; [|done].
    intros H. by apply IH in H.
Qed.

Section Grid.

Variables w h : Z.

Lemma carve_loop_agree rec1 rec2 x y ds :
  (∀ x' y' st, (st_rng st).1 = seed →
     rec1 x' y' st = rec2 x' y' st ∧
     ∀ st', rec1 x' y' st = Some st' → (st_rng st').1 = seed) →
  ∀ st, (st_rng st).1 = seed →
    carve_loop dN dS dE dW w h rec1 x y ds st
    = carve_loop dN dS dE dW w h rec2 x y ds st ∧
    ∀ st', carve_loop dN dS dE dW w h rec1 x y ds st = Some st' →
           (st_rng st').1 = seed.
Proof.
  intros Hrec. induction ds as [|d ds IH]; intros st Hst.
  - split; [done|]. cbn. by intros st' [= <-].
  - cbn [carve_loop]. destruct (_ && _); [|by apply IH].
    destruct (arr_get (st_grid st) (index w (x + DX dE dW d) (y + DY dN dS d)))
      as [v|]; cbn [mbind option_bind]; [|done].
    destruct (v =? 0); [|by apply IH].
    destruct (arr_get (st_grid st) (index w x y)) as [cur|];
      cbn [mbind option_bind]; [|done].
    destruct (arr_set _ _ _) as [g1|]; cbn [mbind option_bind]; [|done].
    destruct (arr_get g1 _) as [nbv|]; cbn [mbind option_bind]; [|done].
    destruct (arr_set g1 _ _) as [g2|]; cbn [mbind option_bind]; [|done].
    match goal with
    | |- context [rec1 ?a ?b ?s] =>
        destruct (Hrec a b s Hst) as [E P]; rewrite E in *;
        destruct (rec2 a b s) as [st1|]; cbn [mbind option_bind]; [|done];
        apply IH; by apply P
    end.
Qed.

Lemma create_passage_from_agree fuel : ∀ x y st,
  (st_rng st).1 = seed →
  create_passage_from dN dS dE dW stream1 w h fuel x y st
  = create_passage_from dN dS dE dW stream2 w h fuel x y st ∧
  ∀ st', create_passage_from dN dS dE dW stream1 w h fuel x y st = Some st' →
         (st_rng st').1 = seed.
Proof.
  induction fuel as [|fuel IH]; intros x y st Hst; [done|].
  cbn [create_passage_from]. unfold shuffle.
  destruct (st_rng st) as [s k] eqn:Hg. simpl in Hst. subst s.
  rewrite shuffle_loop_agree.
  destruct (shuffle_loop stream2 4 0 _ _) as [[ds g]|] eqn:Hs;
    cbn [mbind option_bind]; [|done].
  apply shuffle_loop_seed in Hs. by apply carve_loop_agree.
Qed.

Lemma BackTracker_agree :
  BackTracker dN dS dE dW stream1 w h seed
  = BackTracker dN dS dE dW stream2 w h seed.
Proof.
  unfold BackTracker, carve, Maze_new. cbn [_grid].
  by destruct (create_passage_from_agree (S (Z.to_nat (w * h))) 0 0
                 {| st_grid := replicate (Z.to_nat (w * h)) 0;
                    st_rng := srand seed; st_calls := [] |} eq_refl)
    as [-> _].
Qed.

Hypothesis Hdirs : direction_bits_ok dN dS dE dW = true.

Lemma main_total stream :
  ∃ m es, BackTracker dN dS dE dW stream w h seed = Some m ∧
          draw dS dE m = Some es.
Proof.
  destruct (decide (1 ≤ w ∧ 1 ≤ h)) as [[Hw Hh]|Hd].
  - destruct (BackTracker_drawn dN dS dE dW stream Hdirs w h Hw Hh seed)
      as (st & es & ? & _ & ? & _). by eexists _, es.
  - assert (Hnone : w ≤ 0 ∨ h ≤ 0) by lia.
    destruct (draw_no_cell dS dE
                {| _width := w; _height := h; _seed := seed;
                   _grid := replicate (Z.to_nat (w * h)) 0 |} Hnone)
      as (es & Hes & _).
    eexists _, es. split; [|exact Hes].
    by apply BackTracker_no_cell.
Qed.

(** C3. Two complete runs on the same width, height and seed, with
    generators that give the same sequence for that seed, both return,
    with the same cell array and the same text drawn. *)
Theorem runs_deterministic :
  ∃ m out,
    BackTracker dN dS dE dW stream1 w h seed = Some m ∧
    BackTracker dN dS dE dW stream2 w h seed = Some m ∧
    main dN dS dE dW stream1 w h seed = Some out ∧
    main dN dS dE dW stream2 w h seed = Some out.
Proof.
  destruct (main_total stream1) as (m & es & Hbt & Hes).
  exists m, (rendered es). unfold main.
  rewrite <- BackTracker_agree, Hbt. cbn [mbind option_bind].
  by rewrite Hes.
Qed.

End Grid.

End Determinism.

(** ** Cell access *)

(** C5, as the code has it.  The cell read and the passage write check no
    coordinates: they go to the array element of flattened index
    [y * width + x].  When that index is inside the array the access
    succeeds, also for coordinates outside the grid, and lands on the
    element of the in-bounds cell [(i mod width, i / width)]; when it is
    outside the array the access is undefined, and no error is raised. *)
Theorem access_by_flattened_index (m : Maze) (x y d : Z) :
  1 ≤ _width m →
  length (_grid m) = Z.to_nat (_width m * _height m) →
  let i := index (_width m) x y in
  (0 ≤ i < _width m * _height m →
     in_bounds (_width m) (_height m)
       (i `mod` _width m, i `div` _width m) = true ∧
     grid_get m x y = grid_get m (i `mod` _width m) (i `div` _width m) ∧
     ∃ v, grid_get m x y = Some v ∧
          grid_or m x y d = Some (<[Z.to_nat i := Z.lor v d]> (_grid m))) ∧
  (¬ (0 ≤ i < _width m * _height m) →
     grid_get m x y = None ∧ grid_or m x y d = None).
Proof.
  intros Hw Hlen i. split.
  - intros Hi. split; [|split].
    + apply in_bounds_iff. simpl.
      pose proof (Z.mod_pos_bound i (_width m) ltac:(lia)).
      split; [lia|]. split.
      * apply Z.div_pos; lia.
      * apply Z.div_lt_upper_bound; lia.
    + unfold grid_get. f_equal. change (index (_width m) x y) with i.
      unfold index.
      rewrite (Z.mul_comm _ (_width m)), <- Z.div_mod by lia. done.
    + assert (Hg : grid_get m x y = Some (default 0 (grid_get m x y))).
      { unfold grid_get. fold i. apply arr_get_in. lia. }
      exists (default 0 (grid_get m x y)). split; [done|].
      unfold grid_or. rewrite Hg. cbn [mbind option_bind default].
      fold i. apply arr_set_in. lia.
  - intros Hi.
    assert (Hg : grid_get m x y = None).
    { unfold grid_get, arr_get. fold i.
      destruct (Z.ltb_spec i 0); [done|]. apply lookup_ge_None. lia. }
    split; [done|]. unfold grid_or. by rewrite Hg.
Qed.

(** ** The layout of the cell array *)

Lemma bind_singletons {A B} (k : A → B) (l : list A) :
  l ≫= (λ i, [k i]) = k <$> l.
Proof. induction l as [|a l IH]; [done|]. by rewrite bind_cons, IH. Qed.

Lemma row_major_S w n :
  row_major w (Z.of_nat (S n))
  = row_major w (Z.of_nat n) ++ ((λ i, (i, Z.of_nat n)) <$> seqZ 0 w).
Proof.
  unfold row_major. rewrite seqZ_S, bind_app, bind_singleton.
  by rewrite bind_singletons, Z.add_0_l.
Qed.

Lemma index_row_major_exact w h :
  0 ≤ w → 0 ≤ h →
  (λ c, index w c.1 c.2) <$> row_major w h = seqZ 0 (w * h).
Proof.
  intros Hw Hh. rewrite <- (Z2Nat.id h) by done.
  induction (Z.to_nat h) as [|n IH]; [by rewrite Z.mul_0_r|].
  rewrite row_major_S, fmap_app, IH, <- list_fmap_compose.
  replace (w * Z.of_nat (S n)) with (w * Z.of_nat n + w) by lia.
  rewrite seqZ_app by lia. f_equal.
  replace (0 + w * Z.of_nat n) with (w * Z.of_nat n + 0) by lia.
  rewrite <- (fmap_add_seqZ (w * Z.of_nat n) 0 w).
  apply list_fmap_ext. intros k i _. unfold index. simpl. lia.
Qed.

Lemma elem_of_row_major w h c :
  c ∈ row_major w h ↔ 0 ≤ c.1 < w ∧ 0 ≤ c.2 < h.
Proof.
  unfold row_major. rewrite list_elem_of_bind. split.
  - intros (j & Hc & Hj). apply list_elem_of_bind in Hc as (i & Hc & Hi).
    apply list_elem_of_singleton in Hc as ->.
    apply elem_of_seqZ in Hi, Hj. simpl. lia.
  - intros [Hi Hj]. exists c.2. split; [|apply elem_of_seqZ; lia].
    apply list_elem_of_bind. exists c.1. split; [|apply elem_of_seqZ; lia].
    destruct c. apply list_elem_of_singleton. done.
Qed.

Lemma row_major_negative w h : w < 0 ∨ h < 0 → row_major w h = [].
Proof.
  intros Hd. destruct (row_major w h) as [|c l] eqn:E; [done|].
  assert (Hc : c ∈ row_major w h) by (rewrite E; left).
  apply elem_of_row_major in Hc. lia.
Qed.

Lemma wrap_int_exact z : - 2 ^ 31 ≤ z ≤ INT_MAX → wrap_int z = z.
Proof.
  unfold INT_MAX, wrap_int. intros Hz. rewrite Z.mod_small; lia.
Qed.

(** On a grid of at most [INT_MAX] cells the [int] computation of
    [Maze::index] is exact, for the cells and for the coordinates
    [(width, y)] that [draw] may pass for an East neighbour. *)
Lemma index_int_exact w h x y :
  w * h ≤ INT_MAX → 0 ≤ x ≤ w → 0 ≤ y < h →
  index_int w x y = index w x y.
Proof.
  intros Hwh Hx Hy. unfold index_int, index.
  assert (0 ≤ y * w) by (apply Z.mul_nonneg_nonneg; lia).
  assert (y * w + w ≤ w * h).
  { replace (y * w + w) with (w * (y + 1)) by lia.
    apply Z.mul_le_mono_nonneg_l; lia. }
  unfold INT_MAX in Hwh.
  rewrite (wrap_int_exact (y * w)) by (unfold INT_MAX; lia).
  apply wrap_int_exact. unfold INT_MAX. lia.
Qed.

(** Past [INT_MAX] cells the computation of [Maze::index] wraps around. *)
Lemma index_int_wraps : index_int 65536 0 32768 = -2147483648.
Proof. reflexivity. Qed.

(** X10. [Maze::index] numbers the cells of the grid row by row, each row
    from left to right: when width and height are not negative and
    width*height is at most [INT_MAX], the [int] computation overflows
    for no cell, and the indexes of the cells taken in this order are
    0, 1, ..., width*height - 1, each position of the cell array once. *)
Theorem index_row_major w h :
  0 ≤ w → 0 ≤ h → w * h ≤ INT_MAX →
  (λ c, index_int w c.1 c.2) <$> row_major w h = seqZ 0 (w * h) ∧
  Forall (λ c, index_int w c.1 c.2 = index w c.1 c.2) (row_major w h).
Proof.
  intros Hw Hh Hwh.
  assert (Hex : Forall (λ c, index_int w c.1 c.2 = index w c.1 c.2)
                  (row_major w h)).
  { apply Forall_forall. intros c Hc. apply elem_of_row_major in Hc.
    apply (index_int_exact w h); [done|lia|lia]. }
  split; [|done]. rewrite <- index_row_major_exact by done.
  by apply Forall_fmap_ext.
Qed.

(** ** [Maze::inspect] *)

Lemma array_by_index (g : list Z) n :
  0 ≤ n → length g = Z.to_nat n →
  (λ k, default 0 (arr_get g k)) <$> seqZ 0 n = g.
Proof.
  intros Hn Hlen. apply list_eq. intros i. rewrite list_lookup_fmap.
  destruct (decide (i < length g)%nat) as [Hi|Hi].
  - rewrite lookup_seqZ_lt by lia. simpl. unfold arr_get.
    destruct (Z.ltb_spec (0 + Z.of_nat i) 0); [lia|].
    replace (Z.to_nat (0 + Z.of_nat i)) with i by lia.
    destruct (lookup_lt_is_Some_2 g i Hi) as [v ->]. done.
  - rewrite lookup_seqZ_ge by lia. simpl. symmetry.
    apply lookup_ge_None. lia.
Qed.

Lemma for_range_exact (txt : Z → string) (lk : Z → list (Z * Z)) body n :
  ∀ i,
    (∀ k, i ≤ k < i + Z.of_nat n →
          ∃ e, body k = Some e ∧ rendered e = txt k ∧ lookups e = lk k) →
    ∃ es, for_range n i body = Some es ∧
          rendered es = join (txt <$> seqZ i (Z.of_nat n)) ∧
          lookups es = seqZ i (Z.of_nat n) ≫= lk.
Proof.
  induction n as [|n IH]; intros i Hbody.
  - exists []. by repeat split.
  - destruct (Hbody i ltac:(lia)) as (e & He & Ht & Hq).
    destruct (IH (i + 1)) as (es & Hes & Hts & Hqs).
    { intros k Hk. apply Hbody. lia. }
    exists (e ++ es). cbn [for_range]. rewrite He, Hes.
    split; [done|].
    rewrite rendered_app, lookups_app, Ht, Hts, Hq, Hqs.
    rewrite (seqZ_cons i) by lia.
    replace (Z.pred (Z.of_nat (S n))) with (Z.of_nat n) by lia.
    replace (Z.succ i) with (i + 1) by lia. done.
Qed.

Lemma seqZ_to_nat i n : seqZ i (Z.of_nat (Z.to_nat n)) = seqZ i n.
Proof. unfold seqZ. by rewrite Nat2Z.id. Qed.

(** X11. [Maze::inspect] on a maze whose cell array has width*height
    elements (none when the product is not positive), the product being
    at most [INT_MAX]: it completes and looks up the cells (i, j) with
    0 <= i < width and 0 <= j < height, once each, row by row, no index
    computation overflowing.  When width and height are not negative it
    so reads the cell array from its first to its last element; when one
    of them is negative it looks up no cell, whatever the array holds.
    It prints each value read followed by a space, a newline after each
    row, and a newline at the end. *)
Theorem inspect_prints_the_array m :
  length (_grid m) = Z.to_nat (_width m * _height m) →
  _width m * _height m ≤ INT_MAX →
  ∃ es, inspect m = Some es ∧
        lookups es = row_major (_width m) (_height m) ∧
        Forall (λ c, index_int (_width m) c.1 c.2 = index (_width m) c.1 c.2)
          (lookups es) ∧
        rendered es = inspect_text m ∧
        (_width m < 0 ∨ _height m < 0 → lookups es = []) ∧
        (0 ≤ _width m → 0 ≤ _height m →
         cell (_width m) (_grid m) <$> lookups es = _grid m).
Proof.
  intros Hlen Hmax.
  assert (Hrow : ∀ j, 0 ≤ j < _height m →
            ∃ e, inspect_row m j = Some e ∧
                 rendered e
                 = join ((λ i, show_int (cell (_width m) (_grid m) (i, j))
                               +:+ " ") <$> seqZ 0 (_width m)) +:+ endl ∧
                 lookups e = seqZ 0 (_width m) ≫= λ i, [(i, j)]).
  { intros j Hj. unfold inspect_row.
    destruct (for_range_exact
                (λ i, show_int (cell (_width m) (_grid m) (i, j)) +:+ " ")
                (λ i, [(i, j)]) (inspect_cell m j) (Z.to_nat (_width m)) 0)
      as (es & -> & Ht & Hq).
    { intros k Hk. unfold inspect_cell.
      assert (Hc : in_bounds (_width m) (_height m) (k, j) = true)
        by (apply in_bounds_iff; simpl; lia).
      pose proof (cell_get _ _ _ Hlen (k, j) Hc) as Hg.
      cbn [fst snd] in Hg. rewrite Hg. cbn [mbind option_bind].
      eexists. split; [done|]. split; [|done].
      cbn [rendered]. by rewrite append_nil_r. }
    cbn [mbind option_bind]. rewrite seqZ_to_nat in Ht, Hq.
    eexists. split; [done|]. split.
    - by rewrite rendered_app, Ht.
    - rewrite lookups_app, Hq. simpl. by rewrite app_nil_r. }
  unfold inspect.
  destruct (for_range_exact
              (λ j, join ((λ i, show_int (cell (_width m) (_grid m) (i, j))
                                +:+ " ") <$> seqZ 0 (_width m)) +:+ endl)
              (λ j, seqZ 0 (_width m) ≫= λ i, [(i, j)])
              (inspect_row m) (Z.to_nat (_height m)) 0)
    as (es & -> & Ht & Hq).
  { intros k Hk. apply Hrow. lia. }
  cbn [mbind option_bind]. rewrite seqZ_to_nat in Ht, Hq.
  eexists. split; [done|].
  assert (Hl : lookups (es ++ [Out endl]) = row_major (_width m) (_height m)).
  { rewrite lookups_app, Hq. simpl. by rewrite app_nil_r. }
  split; [done|]. rewrite Hl. split; [|split; [|split]].
  - apply Forall_forall. intros c Hc. apply elem_of_row_major in Hc.
    apply (index_int_exact _ (_height m)); [done|lia|lia].
  - rewrite rendered_app, Ht. unfold inspect_text. done.
  - apply row_major_negative.
  - intros Hw Hh.
    rewrite <- (array_by_index (_grid m) (_width m * _height m)) at 2
      by (done || lia).
    rewrite <- index_row_major_exact, <- list_fmap_compose by done.
    apply list_fmap_ext. by intros _ [i j] _.
Qed.

(** ** The command-line parser *)

Section OptParserFacts.

Import OptParser.

Lemma pieces_nonempty delim c s : pieces delim (String c s) ≠ [].
Proof.
  simpl. destruct (Ascii.eqb c delim); [done|].
  destruct (pieces delim s); done.
Qed.

Lemma length_pieces delim s :
  (length (pieces delim s) ≤ String.length s)%nat.
Proof.
  induction s as [|c s IH]; [done|]. simpl.
  destruct (Ascii.eqb c delim); simpl; [lia|].
  destruct (pieces delim s); simpl in *; lia.
Qed.

Lemma pieces_delimiter_free delim s :
  Forall (λ t, occurs delim t = false) (pieces delim s).
Proof.
  induction s as [|c s IH]; [done|]. simpl.
  destruct (Ascii.eqb c delim) eqn:E; [by constructor|].
  destruct (pieces delim s) as [|p ps].
  - repeat constructor. simpl. by rewrite E.
  - apply Forall_cons in IH as [Hp Hps]. constructor; [|done].
    simpl. by rewrite E, Hp.
Qed.

Lemma pieces_unsplit delim s :
  unsplit delim (pieces delim s) = terminated delim s.
Proof.
  induction s as [|c s IH]; [done|]. cbn [pieces terminated].
  destruct (Ascii.eqb c delim) eqn:E.
  - apply Ascii.eqb_eq in E as ->. cbn [unsplit foldr].
    rewrite append_nil_l. fold (unsplit delim (pieces delim s)). rewrite IH.
    by destruct s.
  - destruct s as [|c' s']; [done|].
    destruct (pieces delim (String c' s')) as [|p ps] eqn:Ep;
      [by apply pieces_nonempty in Ep|].
    rewrite <- IH. cbn [unsplit foldr]. by rewrite append_cons.
Qed.

Lemma unsplit_app delim l1 l2 :
  unsplit delim (l1 ++ l2) = unsplit delim l1 +:+ unsplit delim l2.
Proof.
  induction l1 as [|a l1 IH]; [done|]. cbn [app unsplit foldr].
  fold (unsplit delim (l1 ++ l2)). fold (unsplit delim l1).
  rewrite IH. rewrite !append_assoc. by f_equal.
Qed.

Lemma read_item_pieces delim s item rest :
  s ≠ EmptyString →
  read_item delim s = (item, rest) →
  pieces delim s = item :: pieces delim rest ∧
  (String.length rest < String.length s)%nat.
Proof.
  revert item rest. induction s as [|c s IH]; intros item rest Hne; [done|].
  cbn [read_item pieces]. destruct (Ascii.eqb c delim).
  - intros [= <- <-]. simpl. split; [done|lia].
  - destruct (read_item delim s) as [item' rest'] eqn:Er.
    intros [= <- <-].
    destruct (decide (s = EmptyString)) as [-> | Hs].
    + simpl in Er. injection Er as <- <-. simpl. split; [done|lia].
    + destruct (IH item' rest' Hs eq_refl) as [-> Hl]. simpl. split; [done|lia].
Qed.

Lemma split_loop_pieces delim fuel : ∀ s elems,
  (String.length s < fuel)%nat →
  split_loop fuel delim s elems = Some (elems ++ pieces delim s).
Proof.
  induction fuel as [|fuel IH]; intros s elems Hfuel; [lia|].
  destruct s as [|c s]; [cbn; by rewrite app_nil_r|].
  cbn [split_loop getline]. simpl in Hfuel.
  destruct (read_item delim (String c s)) as [item rest] eqn:Er.
  assert (Hne : String c s ≠ EmptyString) by done.
  destruct (read_item_pieces _ _ _ _ Hne Er) as [Hp Hl]. simpl in Hl.
  rewrite IH by lia. rewrite Hp.
  by rewrite <- app_assoc.
Qed.

Lemma split_into_pieces s delim elems :
  split_into s delim elems = Some (elems ++ pieces delim s).
Proof. unfold split_into. apply split_loop_pieces. lia. Qed.

(** X12. [OptParser::split] always returns; it appends its tokens to
    [elems], no token holds the delimiter, and the tokens put back
    together, each followed by the delimiter, make the string again, up to
    one delimiter at its end: empty tokens are kept, but for an empty
    last one. *)
Theorem split_round_trip s delim elems :
  ∃ tokens,
    split_into s delim elems = Some (elems ++ tokens) ∧
    Forall (λ t, occurs delim t = false) tokens ∧
    unsplit delim tokens = terminated delim s.
Proof.
  exists (pieces delim s). split; [apply split_into_pieces|].
  split; [apply pieces_delimiter_free|apply pieces_unsplit].
Qed.

(** X13. [OptParser::split] of a string without the delimiter gives the
    string as the only token, and no token at all for the empty string. *)
Theorem split_without_delimiter s delim :
  occurs delim s = false →
  split s delim = Some (match s with EmptyString => [] | _ => [s] end).
Proof.
  intros Hs. unfold split. rewrite split_into_pieces. f_equal. simpl.
  induction s as [|c s IH]; [done|]. simpl in *.
  apply orb_false_elim in Hs as [Hc Hs]. rewrite Hc.
  specialize (IH Hs). destruct s; [done|]. by rewrite IH.
Qed.

Lemma snoc_exists {A} (l : list A) : l ≠ [] → ∃ l' x, l = l' ++ [x].
Proof. induction l as [|x l _] using rev_ind; [done|]. by exists l, x. Qed.

Lemma vec_at_last {A} (l : list A) x :
  Z.of_nat (length (l ++ [x])) ≤ 2 ^ 64 →
  vec_at (l ++ [x]) (last_index (l ++ [x])) = Some x.
Proof.
  intros Hlen. unfold vec_at, last_index.
  rewrite length_app in *. simpl in *.
  rewrite Z.mod_small by lia.
  destruct (Z.leb_spec 0 (Z.of_nat (length l + 1) - 1)); [|lia].
  destruct (Z.ltb_spec (Z.of_nat (length l + 1) - 1)
              (Z.of_nat (length l + 1))); [|lia].
  simpl. replace (Z.to_nat (Z.of_nat (length l + 1) - 1)) with (length l) by lia.
  by rewrite lookup_app_r, Nat.sub_diag by lia.
Qed.

(** X14. The constructor takes as script name the part of [argv[0]] after
    its last slash (a slash at the very end apart): the name holds no
    slash, and [argv[0]] is some prefix, empty or ending with a slash,
    followed by the name.  The usage starts with the line of that name and
    the other arguments are kept in order.  When [argv[0]] is the empty
    string the constructor indexes an empty vector: its behaviour is
    undefined. *)
Theorem new_script_name argv0 rest :
  Z.of_nat (String.length argv0) ≤ 2 ^ 64 →
  (argv0 ≠ EmptyString →
   ∃ p pre,
     new (argv0 :: rest) = Some p ∧
     occurs slash (_scriptName p) = false ∧
     terminated slash argv0
     = pre +:+ _scriptName p +:+ String slash EmptyString ∧
     (pre = EmptyString ∨ ∃ q, pre = q +:+ String slash EmptyString) ∧
     _usage p = ["Usage: " +:+ _scriptName p +:+ " [options]"] ∧
     _args p = rest) ∧
  (argv0 = EmptyString → new (argv0 :: rest) = None).
Proof.
  intros Hlen. split; [|by intros ->].
  intros Hne. unfold new, split. rewrite split_into_pieces.
  cbn [mbind option_bind app].
  pose proof (length_pieces slash argv0) as Hcount.
  pose proof (pieces_delimiter_free slash argv0) as Hfree.
  pose proof (pieces_unsplit slash argv0) as Hjoin.
  destruct (snoc_exists (pieces slash argv0)) as (l & t & Ep).
  { destruct argv0; [done|]. apply pieces_nonempty. }
  rewrite Ep in *. rewrite vec_at_last by lia. cbn [mbind option_bind].
  eexists _, (unsplit slash l).
  apply Forall_app in Hfree as [Hl Ht].
  apply (Forall_cons (λ t, occurs slash t = false)) in Ht as [Ht _].
  split; [done|]. cbn [_scriptName _usage _args].
  split; [done|]. split.
  { rewrite <- Hjoin, unsplit_app. cbn [unsplit foldr]. done. }
  split; [|done].
  destruct (decide (l = [])) as [-> | Hl0]; [by left|]. right.
  destruct (snoc_exists l Hl0) as (l0 & a & ->).
  exists (unsplit slash l0 +:+ a). rewrite unsplit_app. cbn [unsplit foldr].
  by rewrite append_assoc.
Qed.

Lemma map_insert_lookup {V} (k k' : string) (v : V) (m : gmap string V) :
  map_insert k v m !! k'
  = match m !! k' with
    | Some x => Some x
    | None => if decide (k = k') then Some v else None
    end.
Proof.
  unfold map_insert. destruct (m !! k) as [x|] eqn:Ek.
  - destruct (m !! k') as [x'|] eqn:Ek'; [done|].
    destruct (decide (k = k')) as [-> | Hne]; [congruence|done].
  - destruct (decide (k = k')) as [-> | Hne].
    + by rewrite lookup_insert_eq, Ek.
    + rewrite lookup_insert_ne by done. by destruct (m !! k').
Qed.

(** X15. After a series of declarations the default of an integer
    attribute and the description of an attribute are those the parser
    had before, if it had any, and otherwise those of the first
    declaration under that short key: a later declaration under the same
    key changes neither. *)
Theorem declarations_keep_the_first l : ∀ p k,
  _attrInt (declare_all p l) !! k
  = match _attrInt p !! k with
    | Some v => Some v
    | None => first_int_default k l
    end ∧
  _desc (declare_all p l) !! k
  = match _desc p !! k with
    | Some d => Some d
    | None => first_description k l
    end.
Proof.
  induction l as [|a l IH]; intros p k.
  - simpl. split; [by destruct (_attrInt p !! k)|by destruct (_desc p !! k)].
  - cbn [declare_all foldl]. fold (declare_all (declare p a) l).
    destruct (IH (declare p a) k) as [-> ->].
    destruct a as [ks kl d v|ks kl d v];
      cbn [declare add_integer_attribute add_string_attribute append_to_usage
           _attrInt _desc first_int_default first_description
           short_key description];
      rewrite ?map_insert_lookup;
      split;
      repeat match goal with
             | |- context [match ?m !! k with _ => _ end] => destruct (m !! k)
             | |- context [decide (?a = ?b)] => destruct (decide (a = b))
             end; done.
Qed.

(** X16. Every declaration adds its line to the usage, in order, also
    when its keys are taken already; the usage of a parser set up the way
    [main] does it prints the line of the script name, an empty line, one
    line per declaration and an empty line. *)
Theorem usage_lists_every_declaration p l :
  _usage (declare_all p l)
  = _usage p ++ ((λ a, usage_line (short_key a) (long_key a) (description a))
                   <$> l) ∧
  rendered
    (usage (prepare_to_end_attributes
              (declare_all (prepare_to_start_attributes p) l)))
  = join ((λ s, s +:+ endl)
            <$> (_usage p ++ [EmptyString]
                 ++ ((λ a, usage_line (short_key a) (long_key a)
                                      (description a)) <$> l)
                 ++ [EmptyString])).
Proof.
  assert (Hu : ∀ l p, _usage (declare_all p l)
             = _usage p ++ ((λ a, usage_line (short_key a) (long_key a)
                                             (description a)) <$> l)).
  { clear. induction l as [|a l IH]; intros p.
    - simpl. by rewrite app_nil_r.
    - cbn [declare_all foldl]. fold (declare_all (declare p a) l).
      rewrite IH. destruct a; simpl; by rewrite <- app_assoc. }
  split; [apply Hu|].
  unfold usage, prepare_to_end_attributes, prepare_to_start_attributes.
  cbn [append_to_usage _usage]. rewrite Hu. cbn [append_to_usage _usage].
  rewrite <- !app_assoc.
  generalize (_usage p ++ [EmptyString] ++
              ((λ a, usage_line (short_key a) (long_key a) (description a))
                 <$> l) ++ [EmptyString]).
  intros ls. induction ls as [|s ls IH]; [done|].
  rewrite bind_cons, rendered_app, IH. cbn [rendered fmap list_fmap join foldr].
  by rewrite (append_nil_r endl).
Qed.

(** X17. [OptParser::parse] accepts every command line: it returns true
    whatever the arguments are, and prints each argument on a line of its
    own. *)
Theorem parse_accepts_everything p :
  (parse p).2 = true ∧
  rendered (parse p).1 = join ((λ a, a +:+ endl) <$> _args p).
Proof.
  unfold parse. induction (_args p) as [|a l [IH1 IH2]]; [done|].
  cbn [parse_loop]. destruct (parse_loop l) as [es r]. simpl in *.
  split; [done|]. rewrite IH2. by rewrite append_assoc.
Qed.

Lemma usage_rendered p :
  rendered (usage p) = join ((λ s, s +:+ endl) <$> _usage p).
Proof.
  unfold usage. induction (_usage p) as [|s ls IH]; [done|].
  rewrite bind_cons, rendered_app, IH. cbn [rendered fmap list_fmap join foldr].
  by rewrite (append_nil_r endl).
Qed.

Lemma parse_loop_spec args :
  (parse_loop args).2 = true ∧
  rendered (parse_loop args).1 = join ((λ a, a +:+ endl) <$> args).
Proof.
  induction args as [|a l [IH1 IH2]]; [done|].
  cbn [parse_loop]. destruct (parse_loop l) as [es r]. simpl in *.
  split; [done|]. rewrite IH2. by rewrite append_assoc.
Qed.

(** X18. The test driver [main] of [optparse.cpp] never reports a bad
    parse: whenever the constructor is defined on the command line, [main]
    returns 0 after printing the usage (the lines the constructor made, an
    empty line, the lines of the attributes w, h and s, an empty line),
    every argument on a line of its own, and the line "parse good". *)
Theorem test_main_reports_good argv b :
  new argv = Some b →
  ∃ es, OptParser.main argv = Some (es, 0) ∧
        rendered es
        = join ((λ s, s +:+ endl)
                  <$> (_usage b
                       ++ [EmptyString;
                           usage_line "w" "width" "(optional)";
                           usage_line "h" "height" "(optional)";
                           usage_line "s" "string" "(optional)";
                           EmptyString]
                       ++ _args b ++ ["parse good"])).
Proof.
  intros Hb. unfold OptParser.main. rewrite Hb. cbn [mbind option_bind].
  set (b' := prepare_to_end_attributes _).
  pose proof (parse_loop_spec (_args b')) as [Hok Hout].
  unfold parse. destruct (parse_loop (_args b')) as [es' ok].
  simpl in Hok, Hout. subst ok. eexists. split; [reflexivity|].
  rewrite !rendered_app, usage_rendered, Hout.
  rewrite !fmap_app, !join_app.
  change (_args b') with (_args b).
  replace (_usage b')
    with (_usage b ++ [EmptyString;
                       usage_line "w" "width" "(optional)";
                       usage_line "h" "height" "(optional)";
                       usage_line "s" "string" "(optional)";
                       EmptyString]).
  2:{ subst b'. unfold prepare_to_end_attributes, prepare_to_start_attributes,
        add_string_attribute, add_integer_attribute.
      cbn [append_to_usage _usage]. by rewrite <- !app_assoc. }
  rewrite fmap_app, join_app. rewrite <- !append_assoc. by do 2 f_equal.
Qed.

End OptParserFacts.

(** ** The theorems at work *)

Lemma carving_spanning_tree_witness :
  direction_bits_ok 1 2 4 8 = true ∧ 1 ≤ 3 ∧ 1 ≤ 2 ∧
  ∃ g, BackTracker 1 2 4 8 lcg 3 2 7
       = Some {| _width := 3; _height := 2; _seed := 7; _grid := g |} ∧
       spanning_tree 1 2 4 8 3 2 g.
Proof.
  split; [reflexivity|]. split; [lia|]. split; [lia|].
  apply (carving_spanning_tree 1 2 4 8 lcg); [reflexivity|lia|lia].
Defined.

Lemma carving_symmetric_witness :
  direction_bits_ok 1 2 4 8 = true ∧ 1 ≤ 3 ∧ 1 ≤ 2 ∧
  ∃ g, BackTracker 1 2 4 8 lcg 3 2 7
       = Some {| _width := 3; _height := 2; _seed := 7; _grid := g |} ∧
       ∀ c d, in_bounds 3 2 c = true → d ∈ dirs 1 2 4 8 →
         (open (cell 3 g c) d = true ↔
          in_bounds 3 2 (neighbor 1 2 4 8 c d) = true ∧
          open (cell 3 g (neighbor 1 2 4 8 c d)) (OPPOSITE 1 2 4 8 d) = true).
Proof.
  split; [reflexivity|]. split; [lia|]. split; [lia|].
  apply (carving_symmetric 1 2 4 8 lcg); [reflexivity|lia|lia].
Defined.

Lemma carving_terminates_witness :
  direction_bits_ok 1 2 4 8 = true ∧ 1 ≤ 3 ∧ 1 ≤ 2 ∧
  (Z.to_nat (3 * 2) ≤ 6)%nat ∧
  ∃ st, carve 1 2 4 8 lcg 6 3 2 7 = Some st ∧
        Z.of_nat (length (st_calls st)) ≤ 3 * 2.
Proof.
  split; [reflexivity|]. split; [lia|]. split; [lia|]. split; [lia|].
  apply (carving_terminates 1 2 4 8 lcg); [reflexivity|lia|lia|lia].
Defined.

Lemma carving_border_closed_witness :
  direction_bits_ok 1 2 4 8 = true ∧ 1 ≤ 3 ∧ 1 ≤ 2 ∧
  ∃ m, BackTracker 1 2 4 8 lcg 3 2 7 = Some m ∧
       (∀ x y, in_bounds 3 2 (x, y) = true →
          (x = 3 - 1 → open (cell 3 (_grid m) (x, y)) 4 = false) ∧
          (x = 0 → open (cell 3 (_grid m) (x, y)) 8 = false) ∧
          (y = 0 → open (cell 3 (_grid m) (x, y)) 1 = false) ∧
          (y = 2 - 1 → open (cell 3 (_grid m) (x, y)) 2 = false)) ∧
       ∃ es, draw 2 4 m = Some es ∧
             Forall (λ c, in_bounds 3 2 c = true) (lookups es).
Proof.
  split; [reflexivity|]. split; [lia|]. split; [lia|].
  apply (carving_border_closed 1 2 4 8 lcg); [reflexivity|lia|lia].
Defined.

Lemma draw_east_rule_witness :
  direction_bits_ok 1 2 4 8 = true ∧ 1 ≤ 3 ∧ 1 ≤ 2 ∧
  ∃ m es, BackTracker 1 2 4 8 lcg 3 2 7 = Some m ∧ draw 2 4 m = Some es ∧
          rendered es = diagram 2 4 m.
Proof.
  split; [reflexivity|]. split; [lia|]. split; [lia|].
  apply (draw_east_rule 1 2 4 8 lcg); [reflexivity|lia|lia].
Defined.

Lemma runs_deterministic_witness :
  (∀ k, lcg 7 k = lcg_only 7 7 k) ∧
  direction_bits_ok 1 2 4 8 = true ∧
  ∃ m out,
    BackTracker 1 2 4 8 lcg 3 2 7 = Some m ∧
    BackTracker 1 2 4 8 (lcg_only 7) 3 2 7 = Some m ∧
    main 1 2 4 8 lcg 3 2 7 = Some out ∧
    main 1 2 4 8 (lcg_only 7) 3 2 7 = Some out.
Proof.
  split; [intros k; reflexivity|]. split; [reflexivity|].
  apply (runs_deterministic 1 2 4 8 lcg (lcg_only 7) 7);
    [intros k; reflexivity|reflexivity].
Defined.

Lemma access_by_flattened_index_witness :
  let m := {| _width := 3; _height := 3; _seed := 1;
              _grid := [4; 12; 10; 6; 10; 3; 1; 5; 9] |} in
  let i := index 3 3 0 in
  (0 ≤ i < 3 * 3 →
     in_bounds 3 3 (i `mod` 3, i `div` 3) = true ∧
     grid_get m 3 0 = grid_get m (i `mod` 3) (i `div` 3) ∧
     ∃ v, grid_get m 3 0 = Some v ∧
          grid_or m 3 0 8 = Some (<[Z.to_nat i := Z.lor v 8]> (_grid m))) ∧
  (¬ (0 ≤ i < 3 * 3) → grid_get m 3 0 = None ∧ grid_or m 3 0 8 = None).
Proof.
  apply (access_by_flattened_index
           {| _width := 3; _height := 3; _seed := 1;
              _grid := [4; 12; 10; 6; 10; 3; 1; 5; 9] |} 3 0 8);
    [simpl; lia|reflexivity].
Defined.


(** ** Where the specification and the code part *)

(** Against C2: on the generator [lcg] seeded with 1 the shuffle has moved
    four draws on, so it has not consumed exactly three. *)
Lemma shuffle_consumes_fourth_draw :
  (snd <$> shuffle 1 2 4 8 lcg (srand 1)) = Some (1, 4%nat) ∧
  ¬ ∃ l, shuffle 1 2 4 8 lcg (srand 1) = Some (l, (1, 3%nat)).
Proof.
  split; [by vm_compute|]. intros [l H]. vm_compute in H. congruence.
Qed.

(** Against C5: in the 3x3 maze of seed 1, reading at the coordinates
    (3, 0), which are outside the grid, does not fail: it yields the state
    of the cell (0, 1), and the write goes to that cell too. *)
Lemma out_of_range_access_aliases :
  ∃ m, BackTracker 1 2 4 8 lcg 3 3 1 = Some m ∧
       in_bounds (_width m) (_height m) (3, 0) = false ∧
       grid_get m 3 0 = Some 6 ∧ grid_get m 0 1 = Some 6 ∧
       grid_or m 3 0 8 = Some [4; 12; 10; 14; 10; 3; 1; 5; 9].
Proof. eexists. by vm_compute. Qed.


(** Against C7: the metadata line of the 1x1 maze is not
    "width: 1, height: 1, seed: 0"; the text drawn is not the three lines
    " _", "|_|" and that one. *)
Lemma single_cell_metadata_indented :
  main 1 2 4 8 lcg 1 1 0
  ≠ Some (" _" +:+ endl +:+ "|_|" +:+ endl +:+
          "width: 1, height: 1, seed: 0" +:+ endl).
Proof. vm_compute. congruence. Qed.

(** ** The further theorems at work *)

Lemma carving_draw_count_witness :
  direction_bits_ok 1 2 4 8 = true ∧ 1 ≤ 3 ∧ 1 ≤ 2 ∧
  (Z.to_nat (3 * 2) ≤ 6)%nat ∧
  ∃ st, carve 1 2 4 8 lcg 6 3 2 7 = Some st ∧
        st_rng st = (7, (4 * Z.to_nat (3 * 2))%nat).
Proof.
  split; [reflexivity|]. split; [lia|]. split; [lia|]. split; [lia|].
  apply (carving_draw_count 1 2 4 8 lcg); [reflexivity|lia|lia|lia].
Defined.

Lemma carving_enters_each_cell_once_witness :
  direction_bits_ok 1 2 4 8 = true ∧ 1 ≤ 3 ∧ 1 ≤ 2 ∧
  (Z.to_nat (3 * 2) ≤ 6)%nat ∧
  ∃ st, carve 1 2 4 8 lcg 6 3 2 7 = Some st ∧
        NoDup (st_calls st) ∧
        (∀ c, c ∈ st_calls st ↔ in_bounds 3 2 c = true) ∧
        last (st_calls st) = Some (0, 0).
Proof.
  split; [reflexivity|]. split; [lia|]. split; [lia|]. split; [lia|].
  apply (carving_enters_each_cell_once 1 2 4 8 lcg); [reflexivity|lia|lia|lia].
Defined.

Lemma carving_sets_direction_bits_only_witness :
  direction_bits_ok 1 2 4 8 = true ∧ 1 ≤ 3 ∧ 1 ≤ 2 ∧
  ∃ g, BackTracker 1 2 4 8 lcg 3 2 7
       = Some {| _width := 3; _height := 2; _seed := 7; _grid := g |} ∧
       Forall (λ v, Z.land v (direction_mask 1 2 4 8) = v) g.
Proof.
  split; [reflexivity|]. split; [lia|]. split; [lia|].
  apply (carving_sets_direction_bits_only 1 2 4 8 lcg); [reflexivity|lia|lia].
Defined.

Lemma carving_opens_every_cell_witness :
  direction_bits_ok 1 2 4 8 = true ∧ 1 ≤ 3 ∧ 1 ≤ 2 ∧ 2 ≤ 3 * 2 ∧
  ∃ g, BackTracker 1 2 4 8 lcg 3 2 7
       = Some {| _width := 3; _height := 2; _seed := 7; _grid := g |} ∧
       ∀ c, in_bounds 3 2 c = true →
            ∃ d, d ∈ dirs 1 2 4 8 ∧ pair_open 1 2 4 8 3 2 g c d = true.
Proof.
  split; [reflexivity|]. split; [lia|]. split; [lia|]. split; [lia|].
  apply (carving_opens_every_cell 1 2 4 8 lcg); [reflexivity|lia|lia|lia].
Defined.

Lemma carving_from_any_cell_witness :
  direction_bits_ok 1 2 4 8 = true ∧ 1 ≤ 3 ∧ 1 ≤ 2 ∧
  in_bounds 3 2 (2, 1) = true ∧ (Z.to_nat (3 * 2) ≤ 6)%nat ∧
  ∃ st, create_passage_from 1 2 4 8 lcg 3 2 6 2 1
          {| st_grid := replicate (Z.to_nat (3 * 2)) 0; st_rng := srand 7;
             st_calls := [] |} = Some st ∧
        spanning_tree 1 2 4 8 3 2 (st_grid st).
Proof.
  split; [reflexivity|]. split; [lia|]. split; [lia|].
  split; [reflexivity|]. split; [lia|].
  apply (carving_from_any_cell 1 2 4 8 lcg); [reflexivity|lia|lia|reflexivity|lia].
Defined.

Lemma carving_again_changes_nothing_witness :
  direction_bits_ok 1 2 4 8 = true ∧ 1 ≤ 3 ∧ 1 ≤ 2 ∧ 2 ≤ 3 * 2 ∧
  ∃ st, carve 1 2 4 8 lcg (S (Z.to_nat (3 * 2))) 3 2 7 = Some st ∧
        ∀ x y fuel,
          create_passage_from 1 2 4 8 lcg 3 2 (S fuel) x y st
          = Some {| st_grid := st_grid st;
                    st_rng := ((st_rng st).1, ((st_rng st).2 + 4)%nat);
                    st_calls := (x, y) :: st_calls st |}.
Proof.
  split; [reflexivity|]. split; [lia|]. split; [lia|]. split; [lia|].
  apply (carving_again_changes_nothing 1 2 4 8 lcg); [reflexivity|lia|lia|lia].
Defined.

Lemma draw_size_witness :
  direction_bits_ok 1 2 4 8 = true ∧ 1 ≤ 3 ∧ 1 ≤ 2 ∧
  ∃ m es top rows meta,
    BackTracker 1 2 4 8 lcg 3 2 7 = Some m ∧ draw 2 4 m = Some es ∧
    pieces newline (rendered es) = top :: rows ++ [meta] ∧
    String.length top = Z.to_nat (2 * 3) ∧
    length rows = Z.to_nat 2 ∧
    Forall (λ r, String.length r = Z.to_nat (2 * 3 + 1)) rows.
Proof.
  split; [reflexivity|]. split; [lia|]. split; [lia|].
  apply (draw_size 1 2 4 8 lcg); [reflexivity|lia|lia].
Defined.

Lemma one_row_is_corridor_witness :
  direction_bits_ok 1 2 4 8 = true ∧ 1 ≤ 4 ∧ 1 ≤ 1 ∧ 1 = 1 ∧
  ∃ m es,
    BackTracker 1 2 4 8 lcg 4 1 7 = Some m ∧
    (∀ i, 0 ≤ i < 4 →
       (open (cell 4 (_grid m) (i, 0)) 4 = true ↔ i < 4 - 1) ∧
       (open (cell 4 (_grid m) (i, 0)) 8 = true ↔ 0 < i) ∧
       open (cell 4 (_grid m) (i, 0)) 1 = false ∧
       open (cell 4 (_grid m) (i, 0)) 2 = false) ∧
    draw 2 4 m = Some es ∧
    rendered es
    = top_text m +:+
      ("|" +:+ join (replicate (Z.to_nat (4 - 1)) "__") +:+ "_|" +:+ endl) +:+
      metadata_text m.
Proof.
  split; [reflexivity|]. split; [lia|]. split; [lia|]. split; [reflexivity|].
  apply (one_row_is_corridor 1 2 4 8 lcg); [reflexivity|lia|lia|reflexivity].
Defined.

Lemma index_row_major_witness :
  0 ≤ 3 ∧ 0 ≤ 2 ∧ 3 * 2 ≤ INT_MAX ∧
  (λ c : Z * Z, index_int 3 c.1 c.2) <$> row_major 3 2 = seqZ 0 (3 * 2) ∧
  Forall (λ c : Z * Z, index_int 3 c.1 c.2 = index 3 c.1 c.2)
    (row_major 3 2).
Proof.
  split; [lia|]. split; [lia|]. split; [vm_compute; discriminate|].
  apply (index_row_major 3 2); [lia|lia|vm_compute; discriminate].
Defined.

Lemma inspect_prints_the_array_witness :
  let m := {| _width := 3; _height := 2; _seed := 0;
              _grid := [4; 12; 10; 6; 10; 3] |} in
  length (_grid m) = Z.to_nat (_width m * _height m) ∧
  _width m * _height m ≤ INT_MAX ∧
  ∃ es, inspect m = Some es ∧
        lookups es = row_major (_width m) (_height m) ∧
        Forall (λ c, index_int (_width m) c.1 c.2 = index (_width m) c.1 c.2)
          (lookups es) ∧
        rendered es = inspect_text m ∧
        (_width m < 0 ∨ _height m < 0 → lookups es = []) ∧
        (0 ≤ _width m → 0 ≤ _height m →
         cell (_width m) (_grid m) <$> lookups es = _grid m).
Proof.
  intros m. split; [reflexivity|]. split; [vm_compute; discriminate|].
  apply (inspect_prints_the_array m); [reflexivity|vm_compute; discriminate].
Defined.

Lemma split_without_delimiter_witness :
  occurs OptParser.slash "maze" = false ∧
  OptParser.split "maze" OptParser.slash = Some ["maze"].
Proof.
  split; [reflexivity|].
  apply (split_without_delimiter "maze" OptParser.slash). reflexivity.
Defined.

Lemma new_script_name_witness :
  Z.of_nat (String.length "./bin/maze") ≤ 2 ^ 64 ∧
  ("./bin/maze" ≠ EmptyString →
   ∃ p pre,
     OptParser.new ["./bin/maze"; "-w"; "3"] = Some p ∧
     occurs OptParser.slash (OptParser._scriptName p) = false ∧
     terminated OptParser.slash "./bin/maze"
     = pre +:+ OptParser._scriptName p +:+ String OptParser.slash EmptyString ∧
     (pre = EmptyString ∨ ∃ q, pre = q +:+ String OptParser.slash EmptyString) ∧
     OptParser._usage p
     = ["Usage: " +:+ OptParser._scriptName p +:+ " [options]"] ∧
     OptParser._args p = ["-w"; "3"]) ∧
  ("./bin/maze" = EmptyString →
   OptParser.new ["./bin/maze"; "-w"; "3"] = None).
Proof.
  split; [vm_compute; discriminate|].
  apply (new_script_name "./bin/maze" ["-w"; "3"]). vm_compute. discriminate.
Defined.

Lemma test_main_reports_good_witness :
  let b := {| OptParser._scriptName := "optparse";
              OptParser._usage := ["Usage: optparse [options]"];
              OptParser._args := ["-w"; "3"];
              OptParser._attrInt := ∅; OptParser._attrString := ∅;
              OptParser._mapLongToShort := ∅; OptParser._desc := ∅ |} in
  OptParser.new ["./bin/optparse"; "-w"; "3"] = Some b ∧
  ∃ es, OptParser.main ["./bin/optparse"; "-w"; "3"] = Some (es, 0) ∧
        rendered es
        = join ((λ s, s +:+ endl)
                  <$> (OptParser._usage b
                       ++ [EmptyString;
                           OptParser.usage_line "w" "width" "(optional)";
                           OptParser.usage_line "h" "height" "(optional)";
                           OptParser.usage_line "s" "string" "(optional)";
                           EmptyString]
                       ++ OptParser._args b ++ ["parse good"])).
Proof.
  intros b. split; [reflexivity|].
  apply (test_main_reports_good ["./bin/optparse"; "-w"; "3"] b). reflexivity.
Defined.
